(** * ghq: the commands of [commands.go]

    A shallow embedding of the command actions of ghq ([doGet],
    [getRemoteRepository], [doList], [doWhich], [doLook] and the two import
    loops) together with the properties of the listing, resolution and sync
    logic.

    Go strings are byte strings: [string].  Go's [int] is a 64-bit signed
    integer: [Z] with the wrap-around written out ([wrap64]).  A Go
    [map[string]int] is a [gmap string Z] read with the zero value for a
    missing key ([get]).  The side effects of a command (log lines, printed
    lines, calls of the VCS driver, process exit) are threaded through a small
    trace monad. *)

From Stdlib Require Import ZArith Lia.
From stdpp Require Import base list strings pretty gmap.

Local Open Scope Z_scope.

(** ** Go runtime: machine integers, maps, strings *)

Module Go.

(** Two's complement wrap-around of a 64-bit [int]. *)
Definition wrap64 (z : Z) : Z := (z + 2 ^ 63) `mod` 2 ^ 64 - 2 ^ 63.

(** [m[k]] on a [map[string]int]: the zero value when the key is missing. *)
Definition get (m : gmap string Z) (k : string) : Z := default 0 (m !! k).

(** [m[k] = m[k] + 1]. *)
Definition incr (m : gmap string Z) (k : string) : gmap string Z :=
  <[k := wrap64 (get m k + 1)]> m.

(** [strings.Join(elems, sep)]. *)
Fixpoint Join (elems : list string) (sep : string) : string :=
  match elems with
  | [] => ""
  | [e] => e
  | e :: rest => e +:+ sep +:+ Join rest sep
  end.

(** [strings.HasPrefix(s, prefix)]. *)
Fixpoint HasPrefix (s prefix : string) {struct prefix} : bool :=
  match prefix, s with
  | EmptyString, _ => true
  | String _ _, EmptyString => false
  | String b prefix', String a s' =>
      if decide (a = b) then HasPrefix s' prefix' else false
  end.

(** [strings.Index(s, substr)]: the byte index of the first occurrence of
    [substr] in [s], or [-1]; [from] is the index of the head of [s]. *)
Fixpoint IndexFrom (from : Z) (s substr : string) : Z :=
  if HasPrefix s substr then from
  else match s with
       | EmptyString => -1
       | String _ s' => IndexFrom (from + 1) s' substr
       end.

Definition Index (s substr : string) : Z := IndexFrom 0 s substr.

(** [strings.Contains(s, substr)] is [Index(s, substr) >= 0]. *)
Definition Contains (s substr : string) : bool := 0 <=? Index s substr.

End Go.

(** ** Local repositories *)

(** The struct [LocalRepository], with the fields the commands read. *)
Record LocalRepository := {
  FullPath : string;
  RelPath : string;
  PathParts : list string
}.

Global Instance LocalRepository_eq_dec : EqDecision LocalRepository.
Proof. solve_decision. Defined.

(** Modelled from the spec: the method [LocalRepository.Subpaths] is not part
    of commands.go.  The subpaths of a repository are the suffixes of its path
    parts, shortest first, one for each length from 1 to the number of parts;
    each is printed with its parts joined by the separator. *)
Definition Subpaths (repo : LocalRepository) : list string :=
  let tail := PathParts repo in
  (λ i, Go.Join (drop (length tail - (i + 1)) tail) "/") <$> seq 0 (length tail).

(** Modelled from the spec: the method [LocalRepository.NonHostPath] is not
    part of commands.go.  The path parts are conventionally host, owner and
    name; the non-host path is what follows the host, joined by the separator.
    (The spec keeps [PathParts] non-empty; on an empty slice the Go expression
    [PathParts[1:]] would be out of range.) *)
Definition NonHostPath (repo : LocalRepository) : string :=
  Go.Join (drop 1 (PathParts repo)) "/".

(** Modelled from the spec: the method [LocalRepository.Matches] is not part of
    commands.go.  An exact match: the query is the project, or owner/project,
    or any longer suffix of the path parts, that is one of the subpaths. *)
Definition Matches (repo : LocalRepository) (pathQuery : string) : bool :=
  bool_decide (pathQuery ∈ Subpaths repo).

(** ** Remote repositories and the VCS driver *)

(** A [*url.URL] is only passed around by the commands and rendered with its
    [String] method: the record carries that rendering. *)
Record url_URL := { URL_String : string }.

(** Modelled from the spec: the declaration of [VCSBackend] is not part of
    commands.go.  The backends are git, subversion and mercurial, each with the
    capabilities [Clone] and [Update]; a nil backend is [None]. *)
Inductive VCSBackend := GitBackend | SubversionBackend | MercurialBackend.

(** The interface [RemoteRepository]: the answers of its three methods. *)
Record RemoteRepository := {
  URL : url_URL;
  IsValid : bool;
  VCS : option VCSBackend
}.

(** A Go [error] value, by its message. *)
Definition error := string.

(** The answer of [os.Stat] as the commands look at it: no error, an error for
    which [os.IsNotExist] holds, or another error. *)
Inductive StatResult := StatOk | StatNotExist | StatError (err : error).

(** A [github.Repository] ([HTMLURL] is a [*string]) and a Pocket item. *)
Record github_Repository := { HTMLURL : option string }.
Record pocket_Item := { ResolvedURL : string }.

(** ** Effects *)

(** What a command does to the outside, in the order it happens. *)
Inductive Event :=
| EvLog (prefix message : string)
| EvPrintln (line : string)
| EvShowCommandHelp (command : string)
| EvStat (path : string)
| EvClone (vcs : VCSBackend) (remoteURL : url_URL) (path : string) (isShallow : bool)
| EvUpdate (vcs : VCSBackend) (path : string)
| EvChdir (dir : string)
| EvExec (argv0 : string)
| EvStart (name dir : string)
| EvWait
| EvListStarred (user : string) (page : Z).

(** How a computation ends: it returns, the process exits ([os.Exit]), it
    panics, or the process image is replaced ([syscall.Exec]). *)
Inductive Outcome (A : Type) :=
| Returns (a : A)
| Exits (code : Z)
| Panics
| Replaced.
Arguments Returns {A} a.
Arguments Exits {A} code.
Arguments Panics {A}.
Arguments Replaced {A}.

(** A computation reads the trace so far and extends it. *)
Definition M (A : Type) : Type := list Event → Outcome A * list Event.

Definition M_ret {A} (a : A) : M A := λ tr, (Returns a, tr).

Definition M_bind {A B} (m : M A) (k : A → M B) : M B := λ tr,
  match m tr with
  | (Returns a, tr') => k a tr'
  | (Exits code, tr') => (Exits code, tr')
  | (Panics, tr') => (Panics, tr')
  | (Replaced, tr') => (Replaced, tr')
  end.

Notation "x <- m ;; k" := (M_bind m (λ x, k))
  (at level 100, m at next level, right associativity).
Notation "m ;;; k" := (M_bind m (λ _, k))
  (at level 100, right associativity).

Definition emit (e : Event) : M unit := λ tr, (Returns (), tr ++ [e]).
Definition exit {A} (code : Z) : M A := λ tr, (Exits code, tr).
Definition panic {A} : M A := λ tr, (Panics, tr).
Definition replaced {A} : M A := λ tr, (Replaced, tr).

(** The environment's answer to a call, which may depend on what happened
    before; the call itself is recorded. *)
Definition ask {A} (e : Event) (oracle : list Event → A) : M A :=
  λ tr, (Returns (oracle tr), tr ++ [e]).

(** An answer of the environment to a call that leaves no event, as
    [local.VCS()]. *)
Definition observe {A} (oracle : list Event → A) : M A :=
  λ tr, (Returns (oracle tr), tr).

(** [for _, x := range xs { body }], where [continue] is the end of [body]. *)
Fixpoint forM_ {A} (xs : list A) (body : A → M unit) : M unit :=
  match xs with
  | [] => M_ret ()
  | x :: xs' => body x ;;; forM_ xs' body
  end.

(** ** The environment *)

(** The functions of the repository that commands.go calls but does not
    define, and the operating system, as oracles. *)
Record World := {
  (** the repositories [walkLocalRepositories] visits, in walk order *)
  walked : list LocalRepository;
  IsUnderPrimaryRoot : LocalRepository → bool;
  LocalRepositoryFromURL : url_URL → LocalRepository;
  (** [local.VCS()] *)
  LocalVCS : list Event → LocalRepository → option VCSBackend;
  NewURL : string → error + url_URL;
  ConvertGitURLHTTPToSSH : url_URL → error + url_URL;
  NewRemoteRepository : url_URL → error + RemoteRepository;
  url_Parse : string → error + url_URL;
  os_Stat : list Event → string → StatResult;
  os_Chdir : list Event → string → option error;
  os_Getenv : string → string;
  runtime_GOOS : string;
  cmd_Start : list Event → option error;
  syscall_Exec : list Event → option error;
  ListStarred : list Event → string → Z → error + (list github_Repository * Z);
  (** how [%s] renders the pointer [repo.HTMLURL] *)
  Sprint_pointer : option string → string
}.

(** Modelled from the spec: the package [utils] is not part of commands.go.
    [Log] writes one log line; [PanicIf] panics on an error; [DieIf] logs the
    error and exits with status 1; [ErrorIf] logs the error and tells whether
    there was one. *)
Definition Log (prefix message : string) : M unit := emit (EvLog prefix message).

Definition PanicIf (err : option error) : M unit :=
  match err with
  | Some _ => panic
  | None => M_ret ()
  end.

Definition DieIf {A} (res : error + A) : M A :=
  match res with
  | inl err => Log "error" err ;;; exit 1
  | inr a => M_ret a
  end.

Definition ErrorIf (err : option error) : M bool :=
  match err with
  | Some e => Log "error" e ;;; M_ret true
  | None => M_ret false
  end.

Definition Println (line : string) : M unit := emit (EvPrintln line).
Definition ShowCommandHelp (command : string) : M unit := emit (EvShowCommandHelp command).

(** [walkLocalRepositories(callback)]: the callback is run on every repository
    found; the callbacks of commands.go only update a captured slice, which is
    the state [S]. *)
Definition walkLocalRepositories {S} (w : World) (callback : S → LocalRepository → S)
    (init : S) : S :=
  fold_left callback (walked w) init.

(** ** [getRemoteRepository] and [doGet] *)

(** [vcs.Clone(remoteURL, path, isShallow)] and [vcs.Update(path)]: calls of the
    driver, whose results the commands do not look at. *)
Definition Clone (vcs : VCSBackend) (remoteURL : url_URL) (path : string)
    (isShallow : bool) : M unit :=
  emit (EvClone vcs remoteURL path isShallow).

Definition Update (vcs : VCSBackend) (path : string) : M unit :=
  emit (EvUpdate vcs path).

(** [getRemoteRepository] clones or updates the remote repository [remote].
    [local.VCS().Update(path)] on a nil backend is a nil dereference. *)
Definition getRemoteRepository (w : World) (remote : RemoteRepository)
    (doUpdate isShallow : bool) : M unit :=
  let remoteURL := URL remote in
  let local := LocalRepositoryFromURL w remoteURL in
  let path := FullPath local in
  st <- ask (EvStat path) (λ tr, os_Stat w tr path) ;;
  newPath <- match st with
             | StatOk => M_ret false
             | StatNotExist => M_ret true
             | StatError err => PanicIf (Some err) ;;; M_ret false
             end ;;
  if newPath : bool then
    Log "clone" (URL_String remoteURL +:+ " -> " +:+ path) ;;;
    match VCS remote with
    | None =>
        Log "error" ("Could not find version control system: " +:+ URL_String remoteURL) ;;;
        exit 1
    | Some vcs => Clone vcs remoteURL path isShallow
    end
  else if doUpdate then
    Log "update" path ;;;
    vcs <- observe (λ tr, LocalVCS w tr local) ;;
    match vcs with
    | None => panic
    | Some vcs => Update vcs path
    end
  else Log "exists" path.

Definition doGet (w : World) (argURL : string) (doUpdate isShallow isSSH : bool) : M unit :=
  (if decide (argURL = "") then ShowCommandHelp "get" ;;; exit 1 else M_ret ()) ;;;
  url <- DieIf (NewURL w argURL) ;;
  url <- (if isSSH then DieIf (ConvertGitURLHTTPToSSH w url) else M_ret url) ;;
  remote <- DieIf (NewRemoteRepository w url) ;;
  if negb (IsValid remote) then
    Log "error" ("Not a valid repository: " +:+ URL_String url) ;;; exit 1
  else getRemoteRepository w remote doUpdate isShallow.

(** ** [doList] *)

(** The filter chosen from the query and the [exact] flag. *)
Definition filterFn (query : string) (exact : bool) (repo : LocalRepository) : bool :=
  if decide (query = "") then true
  else if exact then Matches repo query
  else Go.Contains (NonHostPath repo) query.

(** The callback of the walk: [repos = append(repos, repo)] unless filtered. *)
Definition collect (keep : LocalRepository → bool) (repos : list LocalRepository)
    (repo : LocalRepository) : list LocalRepository :=
  if keep repo then repos ++ [repo] else repos.

(** The inner loop [for _, p := range repo.Subpaths() { subpathCount[p]++ }]. *)
Definition countSubpaths (subpathCount : gmap string Z) (ps : list string) : gmap string Z :=
  fold_left Go.incr ps subpathCount.

(** One round of the first loop, on the pair [(subpathCount, reposCount)]. *)
Definition countRepo (counts : gmap string Z * gmap string Z) (repo : LocalRepository)
    : gmap string Z * gmap string Z :=
  let '(subpathCount, reposCount) := counts in
  let subpathCount' :=
    if Go.get reposCount (RelPath repo) =? 0
    then countSubpaths subpathCount (Subpaths repo)
    else subpathCount in
  (subpathCount', Go.incr reposCount (RelPath repo)).

Definition countRepos (repos : list LocalRepository) : gmap string Z * gmap string Z :=
  fold_left countRepo repos (∅, ∅).

(** The inner loop of the second pass: print the first subpath counted once,
    and [break]. *)
Fixpoint printFirstUnique (subpathCount : gmap string Z) (ps : list string) : M unit :=
  match ps with
  | [] => M_ret ()
  | p :: ps' =>
      if Go.get subpathCount p =? 1 then Println p
      else printFirstUnique subpathCount ps'
  end.

Definition printUnique (w : World) (repos : list LocalRepository) : M unit :=
  let '(subpathCount, reposCount) := countRepos repos in
  forM_ repos (λ repo,
    if (1 <? Go.get reposCount (RelPath repo)) && negb (IsUnderPrimaryRoot w repo)
    then M_ret ()
    else printFirstUnique subpathCount (Subpaths repo)).

Definition doList (w : World) (query : string) (exact printFullPaths printUniquePaths : bool)
    : M unit :=
  let repos := walkLocalRepositories w (collect (filterFn query exact)) [] in
  if printUniquePaths then printUnique w repos
  else
    forM_ repos (λ repo,
      if printFullPaths then Println (FullPath repo) else Println (RelPath repo)).

(** ** [doWhich] and [doLook] *)

(** The [default] case of both commands: every candidate is listed. *)
Definition reportCandidates (reposFound : list LocalRepository) : M unit :=
  Log "error" "More than one repositories are found; Try more precise name" ;;;
  forM_ reposFound (λ repo, Log "error" ("- " +:+ Go.Join (PathParts repo) "/")).

Definition doWhich (w : World) (name : string) : M unit :=
  (if decide (name = "") then ShowCommandHelp "which" ;;; exit 1 else M_ret ()) ;;;
  let reposFound := walkLocalRepositories w (collect (λ repo, Matches repo name)) [] in
  match reposFound with
  | [] => Log "error" "No repository found"
  | [repo] => Println (FullPath repo)
  | _ => reportCandidates reposFound
  end.

Definition doLook (w : World) (name : string) : M unit :=
  (if decide (name = "") then ShowCommandHelp "look" ;;; exit 1 else M_ret ()) ;;;
  let reposFound := walkLocalRepositories w (collect (λ repo, Matches repo name)) [] in
  match reposFound with
  | [] => Log "error" "No repository found"
  | [repo] =>
      if decide (runtime_GOOS w = "windows") then
        err <- ask (EvStart (os_Getenv w "COMSPEC") (FullPath repo)) (cmd_Start w) ;;
        match err with
        | None => emit EvWait ;;; exit 0
        | Some _ => M_ret ()
        end
      else
        let shell := os_Getenv w "SHELL" in
        let shell := if decide (shell = "") then "/bin/sh" else shell in
        Log "cd" (FullPath repo) ;;;
        err <- ask (EvChdir (FullPath repo)) (λ tr, os_Chdir w tr (FullPath repo)) ;;
        PanicIf err ;;;
        err <- ask (EvExec shell) (syscall_Exec w) ;;
        match err with
        | None => replaced
        | Some _ => M_ret ()
        end
  | _ => reportCandidates reposFound
  end.

(** ** The import loops *)

(** The body of [for _, repo := range repositories] in [doImportStarred];
    every [continue] ends the body.  [*repo.HTMLURL] on a nil pointer is a nil
    dereference. *)
Definition importStarredRepository (w : World) (doUpdate isSSH isShallow : bool)
    (repo : github_Repository) : M unit :=
  html <- match HTMLURL repo with
          | Some s => M_ret s
          | None => panic
          end ;;
  match url_Parse w html with
  | inl err =>
      Log "error" ("Could not parse URL <" +:+ Sprint_pointer w (HTMLURL repo)
                   +:+ ">: " +:+ err)
  | inr url =>
      converted <- (if isSSH then
                      match ConvertGitURLHTTPToSSH w url with
                      | inl err =>
                          Log "error" ("Could not convert URL <"
                                       +:+ Sprint_pointer w (HTMLURL repo)
                                       +:+ ">: " +:+ err) ;;;
                          M_ret None
                      | inr url' => M_ret (Some url')
                      end
                    else M_ret (Some url)) ;;
      match converted with
      | None => M_ret ()
      | Some url =>
          match NewRemoteRepository w url with
          | inl err => failed <- ErrorIf (Some err) ;; M_ret ()
          | inr remote =>
              if negb (IsValid remote) then
                Log "skip" ("Not a valid repository: " +:+ URL_String url)
              else getRemoteRepository w remote doUpdate isShallow
          end
      end
  end.

(** The page loop of [doImportStarred], [for page := 1; ; page++], run for at
    most [fuel] pages; the answer tells whether the last page was reached.
    The client built from the token is the oracle [ListStarred]. *)
Fixpoint importStarredPages (w : World) (fuel : nat) (user : string)
    (doUpdate isSSH isShallow : bool) (page : Z) : M bool :=
  match fuel with
  | O => M_ret false
  | S fuel' =>
      res <- ask (EvListStarred user page) (λ tr, ListStarred w tr user page) ;;
      listed <- DieIf res ;;
      let '(repositories, lastPage) := listed in
      Log "page" (pretty page +:+ "/" +:+ pretty lastPage) ;;;
      forM_ repositories (importStarredRepository w doUpdate isSSH isShallow) ;;;
      if lastPage <=? page then M_ret true
      else importStarredPages w fuel' user doUpdate isSSH isShallow (Go.wrap64 (page + 1))
  end.

(** The body of [for _, item := range res.List] in [doImportPocket]. *)
Definition importPocketItem (w : World) (doUpdate isShallow : bool)
    (item : pocket_Item) : M unit :=
  match url_Parse w (ResolvedURL item) with
  | inl err =>
      Log "error" ("Could not parse URL <" +:+ ResolvedURL item +:+ ">: " +:+ err)
  | inr url =>
      match NewRemoteRepository w url with
      | inl err => failed <- ErrorIf (Some err) ;; M_ret ()
      | inr remote =>
          if negb (IsValid remote) then
            Log "skip" ("Not a valid repository: " +:+ URL_String url)
          else getRemoteRepository w remote doUpdate isShallow
      end
  end.

Definition importPocketItems (w : World) (doUpdate isShallow : bool)
    (items : list pocket_Item) : M unit :=
  forM_ items (importPocketItem w doUpdate isShallow).

(** ** Notions used to state the properties of the listing *)

(** The number of times [p] occurs in [l]. *)
Definition occ (p : string) (l : list string) : nat :=
  length (filter (λ q, q = p) l).

(** The subpath lists of the repositories, one after the other. *)
Definition allSubpaths (repos : list LocalRepository) : list string :=
  repos ≫= Subpaths.

(** The global frequency count of a subpath over a set of repositories. *)
Definition frequency (repos : list LocalRepository) (p : string) : nat :=
  occ p (allSubpaths repos).

(** The first copy of every relPath, in the order of [repos]; [seen] holds the
    relPaths met before. *)
Fixpoint firstCopies (seen : list string) (repos : list LocalRepository)
    : list LocalRepository :=
  match repos with
  | [] => []
  | repo :: repos' =>
      if decide (RelPath repo ∈ seen) then firstCopies seen repos'
      else repo :: firstCopies (RelPath repo :: seen) repos'
  end.

(** [p] is the subpath assigned to [repo]: the first of its subpaths, shortest
    first, whose frequency count over [repos] is 1. *)
Definition assigned (repos : list LocalRepository) (repo : LocalRepository) (p : string)
    : Prop :=
  ∃ i : nat, Subpaths repo !! i = Some p ∧ frequency repos p = 1%nat ∧
    ∀ (j : nat) (q : string), (j < i)%nat → Subpaths repo !! j = Some q →
      frequency repos q ≠ 1%nat.

(** A path part holds no separator. *)
Definition noSep (part : string) : Prop := Go.Contains part "/" = false.

(** The repositories a command selects from the walk. *)
Definition selected (w : World) (keep : LocalRepository → bool) : list LocalRepository :=
  filter (λ repo, keep repo) (walked w).

(** The line the inner loop of the second pass prints, if any. *)
Fixpoint firstUnique (subpathCount : gmap string Z) (ps : list string) : option string :=
  match ps with
  | [] => None
  | p :: ps' =>
      if Go.get subpathCount p =? 1 then Some p else firstUnique subpathCount ps'
  end.

(** The lines of the unique listing. *)
Definition uniqueLines (w : World) (repos : list LocalRepository) : list string :=
  let '(subpathCount, reposCount) := countRepos repos in
  omap (λ repo,
          if (1 <? Go.get reposCount (RelPath repo)) && negb (IsUnderPrimaryRoot w repo)
          then None
          else firstUnique subpathCount (Subpaths repo)) repos.

(** ** Notions used to state the properties of resolution and import *)

(** The lines of the [default] case: a header and one line per candidate,
    with its path parts joined. *)
Definition candidateLines (reposFound : list LocalRepository) : list Event :=
  EvLog "error" "More than one repositories are found; Try more precise name"
  :: ((λ repo, EvLog "error" ("- " +:+ Go.Join (PathParts repo) "/")) <$> reposFound).

(** The recoverable failures of one target of a batch import, with the line
    logged for each: the URL [raw] of the target, shown as [shown] in the
    messages, cannot be parsed; its conversion to SSH fails; no remote
    repository can be made of it; the remote repository is not valid. *)
Inductive Recoverable (w : World) (isSSH : bool) (raw shown : string) : Event → Prop :=
| UnparsableURL (err : error) :
    url_Parse w raw = inl err →
    Recoverable w isSSH raw shown
      (EvLog "error" ("Could not parse URL <" +:+ shown +:+ ">: " +:+ err))
| FailedSSHConversion (url : url_URL) (err : error) :
    url_Parse w raw = inr url →
    isSSH = true →
    ConvertGitURLHTTPToSSH w url = inl err →
    Recoverable w isSSH raw shown
      (EvLog "error" ("Could not convert URL <" +:+ shown +:+ ">: " +:+ err))
| UnresolvableRemote (url0 url : url_URL) (err : error) :
    url_Parse w raw = inr url0 →
    (if isSSH then ConvertGitURLHTTPToSSH w url0 else inr url0) = inr url →
    NewRemoteRepository w url = inl err →
    Recoverable w isSSH raw shown (EvLog "error" err)
| InvalidRepository (url0 url : url_URL) (remote : RemoteRepository) :
    url_Parse w raw = inr url0 →
    (if isSSH then ConvertGitURLHTTPToSSH w url0 else inr url0) = inr url →
    NewRemoteRepository w url = inr remote →
    IsValid remote = false →
    Recoverable w isSSH raw shown
      (EvLog "skip" ("Not a valid repository: " +:+ URL_String url)).

(** ** Notions of the spec, for comparison *)

(** The eligible copies as the spec words them: a repository whose relPath
    occurs once, or the copy under the primary root of a duplicated one. *)
Definition specEligible (w : World) (repos : list LocalRepository)
    (repo : LocalRepository) : bool :=
  bool_decide (occ (RelPath repo) (RelPath <$> repos) ≤ 1)%nat || IsUnderPrimaryRoot w repo.

(** The frequency count as the spec words it: over the eligible copies. *)
Definition specFrequency (w : World) (repos : list LocalRepository) (p : string) : nat :=
  frequency (filter (λ repo, specEligible w repos repo) repos) p.

(** ** Sample environments *)

(** A repository found below [root] with the given path parts. *)
Definition repoAt (root : string) (parts : list string) : LocalRepository :=
  {| FullPath := root +:+ "/" +:+ Go.Join parts "/";
     RelPath := Go.Join parts "/";
     PathParts := parts |}.

(** Modelled from the spec: [IsUnderPrimaryRoot] and [LocalRepositoryFromURL]
    are not part of commands.go.  A repository is under the primary root when
    its full path lies below it; the local path of a remote is the primary
    root joined with the relative path.  The remaining oracles answer for a
    machine on which [stat] gives the result [st], the local clone has the
    backend [localVCS] and every remote is the repository [remote]. *)
Definition sampleWorld (primary : string) (repos : list LocalRepository)
    (st : StatResult) (localVCS : option VCSBackend)
    (remote : url_URL → error + RemoteRepository) : World :=
  {| walked := repos;
     IsUnderPrimaryRoot := λ repo, Go.HasPrefix (FullPath repo) (primary +:+ "/");
     LocalRepositoryFromURL := λ u, repoAt primary [URL_String u];
     LocalVCS := λ _ _, localVCS;
     NewURL := λ s, if decide (s = "::") then inl "parse error" else inr {| URL_String := s |};
     ConvertGitURLHTTPToSSH := λ u,
       if Go.HasPrefix (URL_String u) "https://"
       then inr {| URL_String :=
                     "ssh://git@" +:+ String.substring 8 (String.length (URL_String u))
                                        (URL_String u) |}
       else inl "not an https URL";
     NewRemoteRepository := remote;
     url_Parse := λ s, if decide (s = "::") then inl "parse error" else inr {| URL_String := s |};
     os_Stat := λ _ _, st;
     os_Chdir := λ _ _, None;
     os_Getenv := λ _, "";
     runtime_GOOS := "linux";
     cmd_Start := λ _, None;
     syscall_Exec := λ _, None;
     ListStarred := λ _ _ _, inr ([], 1);
     Sprint_pointer := λ _, "%!s(*string=0xc000010000)" |}.

Definition gitRemote (u : url_URL) : error + RemoteRepository :=
  inr {| URL := u; IsValid := true; VCS := Some GitBackend |}.

(** The listing worlds of the scenarios: roots [/r1] (primary) and [/r2]. *)
Definition listingWorld (repos : list LocalRepository) : World :=
  sampleWorld "/r1" repos StatNotExist (Some GitBackend) gitRemote.

Definition aliceFoo : LocalRepository := repoAt "/r1" ["github.com"; "alice"; "foo"].
Definition bobFoo : LocalRepository := repoAt "/r2" ["github.com"; "bob"; "foo"].

(** Two clones at different depths below one root, the path parts of the
    first being a suffix of those of the second. *)
Definition nestedLayout : list LocalRepository :=
  [repoAt "/r1" ["alice"; "foo"]; repoAt "/r1" ["github.com"; "alice"; "foo"]].

(** One relPath cloned under two roots, neither of them the primary root
    [/r1]. *)
Definition copiesOutsidePrimary : list LocalRepository :=
  [repoAt "/r2" ["github.com"; "alice"; "foo"]; repoAt "/r3" ["github.com"; "alice"; "foo"]].

(** A remote that is valid but for which no backend is found. *)
Definition unknownRemote (u : url_URL) : error + RemoteRepository :=
  inr {| URL := u; IsValid := true; VCS := None |}.

(** A remote that is not valid. *)
Definition invalidRemote (u : url_URL) : error + RemoteRepository :=
  inr {| URL := u; IsValid := false; VCS := None |}.

(** The remote [github.com/alice/foo], known to be a git repository. *)
Definition aliceFooRemote : RemoteRepository :=
  {| URL := {| URL_String := "github.com/alice/foo" |};
     IsValid := true;
     VCS := Some GitBackend |}.

(** The same remote with no backend found. *)
Definition aliceFooUnknown : RemoteRepository :=
  {| URL := {| URL_String := "github.com/alice/foo" |};
     IsValid := true;
     VCS := None |}.

(** A machine on which the target of the remote is absent, and one on which
    it is present. *)
Definition absentWorld : World :=
  sampleWorld "/r1" [aliceFoo; bobFoo] StatNotExist (Some GitBackend) gitRemote.
Definition presentWorld : World :=
  sampleWorld "/r1" [aliceFoo; bobFoo] StatOk (Some GitBackend) gitRemote.

(** A machine on which every remote is invalid. *)
Definition invalidWorld : World :=
  sampleWorld "/r1" [] StatNotExist (Some GitBackend) invalidRemote.

(** ** The rest of commands.go: [doImportStarred] and the help templates *)



(** The struct [commandDoc] and the table [commandDocs]; a missing key reads
    as the zero value. *)
Record commandDoc := { Parent : string; Arguments : string }.

Definition commandDocs : gmap string commandDoc :=
  list_to_map
    [("get", {| Parent := ""; Arguments := "[-u] <repository URL> | [-u] [-p] <user>/<project>" |});
     ("list", {| Parent := ""; Arguments := "[-p] [-e] [<query>]" |});
     ("which", {| Parent := "";
                  Arguments := "<project> | <user>/<project> | <host>/<user>/<project>" |});
     ("look", {| Parent := "";
                 Arguments := "<project> | <user>/<project> | <host>/<user>/<project>" |});
     ("import", {| Parent := ""; Arguments := "[-u] [-p] starred <user> | [-u] pocket" |});
     ("starred", {| Parent := "import"; Arguments := "[-u] [-p] <user>" |});
     ("pocket", {| Parent := "import"; Arguments := "[-u]" |})].

Definition docOf (docs : gmap string commandDoc) (name : string) : commandDoc :=
  default {| Parent := ""; Arguments := "" |} (docs !! name).

(** The commands, by their [Name], the only field the template reads:
    [Commands], and then the two import subcommands. *)
Definition Commands : list string := ["get"; "list"; "which"; "look"; "import"].
Definition commandImportStarred : string := "starred".
Definition commandImportPocket : string := "pocket".

(** The loop of [mkCommandsTemplate] over a list of commands; [quote] is how
    [%q] renders a name. *)
Definition commandsTemplate (quote : string → string) (docs : gmap string commandDoc)
    (genTemplate : commandDoc → string) (commands : list string) : string :=
  fold_left
    (λ template name,
       template +:+ ("{{else if (eq .Name " +:+ quote name +:+ ")}}"
                     +:+ genTemplate (docOf docs name)))
    commands "{{if false}}"
  +:+ "{{end}}".

Definition mkCommandsTemplate (quote : string → string)
    (genTemplate : commandDoc → string) : string :=
  commandsTemplate quote commandDocs genTemplate
    (Commands ++ [commandImportStarred; commandImportPocket]).

(** [strings.TrimLeft(s, cutset)] for a cutset of ASCII characters: the
    leading bytes of [s] that are in the cutset are dropped. *)
Fixpoint TrimLeft (s cutset : string) : string :=
  match s with
  | EmptyString => EmptyString
  | String a s' =>
      if bool_decide (a ∈ String.list_ascii_of_string cutset) then TrimLeft s' cutset else s
  end.

(** The two generators of [init]. *)
Definition argsOf (doc : commandDoc) : string := Arguments doc.
Definition parentOf (doc : commandDoc) : string := TrimLeft (Parent doc +:+ " ") " ".

(** ** Notions used to state the properties of the rest *)

(** The calls of the VCS driver in a trace. *)
Definition isDriverCall (e : Event) : bool :=
  match e with
  | EvClone _ _ _ _ | EvUpdate _ _ => true
  | _ => false
  end.

Definition driverCalls (tr : list Event) : list Event :=
  filter (λ e, isDriverCall e) tr.







(** The listing world of a relPath cloned under two roots outside the primary
    one, with [bob/foo] under the primary root. *)
Definition mixedWorld : World :=
  listingWorld (copiesOutsidePrimary ++ [repoAt "/r1" ["github.com"; "bob"; "foo"]]).

(** ** Facts about the Go runtime functions *)

Lemma wrap64_small (z : Z) : - 2 ^ 63 ≤ z < 2 ^ 63 → Go.wrap64 z = z.
Proof. intros Hz. unfold Go.wrap64. rewrite Z.mod_small; lia. Qed.

Lemma wrap64_idem_add (a b : Z) : Go.wrap64 (Go.wrap64 a + b) = Go.wrap64 (a + b).
Proof.
  unfold Go.wrap64. f_equal.
  replace ((a + 2 ^ 63) `mod` 2 ^ 64 - 2 ^ 63 + b + 2 ^ 63)
    with ((a + 2 ^ 63) `mod` 2 ^ 64 + b) by lia.
  rewrite Zplus_mod_idemp_l. f_equal. lia.
Qed.

Lemma get_empty (k : string) : Go.get ∅ k = 0.
Proof. unfold Go.get. by rewrite lookup_empty. Qed.

Lemma get_incr (m : gmap string Z) (k k' : string) :
  Go.get (Go.incr m k) k' =
  if decide (k = k') then Go.wrap64 (Go.get m k' + 1) else Go.get m k'.
Proof.
  unfold Go.incr. unfold Go.get at 1. rewrite lookup_insert.
  repeat case_decide; subst; simpl; done.
Qed.

Lemma append_nil_l (t : string) : "" +:+ t = t.
Proof. reflexivity. Qed.

Lemma append_cons (a : Ascii.ascii) (s t : string) : String a s +:+ t = String a (s +:+ t).
Proof. reflexivity. Qed.

Ltac str_simpl := rewrite ?append_cons, ?append_nil_l in *.

Lemma HasPrefix_spec (s prefix : string) :
  Go.HasPrefix s prefix = true ↔ ∃ rest, s = prefix +:+ rest.
Proof.
  revert s. induction prefix as [|b prefix IH]; intros s; simpl.
  - split; [intros _; by exists s | done].
  - destruct s as [|a s]; simpl.
    + split; [done | intros [rest Hrest]; str_simpl; done].
    + case_decide as Hab.
      * subst. rewrite IH. split; intros [rest Hrest]; exists rest; str_simpl; congruence.
      * split; [done | intros [rest Hrest]; str_simpl; congruence].
Qed.

Lemma IndexFrom_range (from : Z) (s substr : string) :
  Go.IndexFrom from s substr = -1 ∨ from ≤ Go.IndexFrom from s substr.
Proof.
  revert from. induction s as [|a s IH]; intros from; simpl.
  - destruct (Go.HasPrefix "" substr); [right; lia | by left].
  - destruct (Go.HasPrefix (String a s) substr); [right; lia |].
    destruct (IH (from + 1)) as [->|?]; [by left | right; lia].
Qed.

Lemma IndexFrom_found (from : Z) (s substr : string) :
  0 ≤ from →
  (0 ≤ Go.IndexFrom from s substr ↔ ∃ before after, s = before +:+ substr +:+ after).
Proof.
  revert from. induction s as [|a s IH]; intros from Hfrom; simpl.
  - destruct (Go.HasPrefix "" substr) eqn:Hp.
    + apply HasPrefix_spec in Hp as [rest Hrest].
      split; [intros _; by exists "", rest | lia].
    + split; [lia |]. intros (before & after & Heq).
      destruct before; str_simpl; [|done].
      assert (Go.HasPrefix "" substr = true) by (apply HasPrefix_spec; eauto).
      congruence.
  - destruct (Go.HasPrefix (String a s) substr) eqn:Hp.
    + apply HasPrefix_spec in Hp as [rest Hrest].
      split; [intros _; by exists "", rest | lia].
    + rewrite IH by lia. split.
      * intros (before & after & ->). by exists (String a before), after.
      * intros (before & after & Heq). destruct before as [|b before]; str_simpl.
        -- assert (Go.HasPrefix (String a s) substr = true) by (apply HasPrefix_spec; eauto).
           congruence.
        -- exists before, after. congruence.
Qed.

(** [strings.Contains] finds exactly the contiguous substrings. *)
Lemma Contains_spec (s substr : string) :
  Go.Contains s substr = true ↔ ∃ before after, s = before +:+ substr +:+ after.
Proof.
  unfold Go.Contains, Go.Index. rewrite Z.leb_le. by apply IndexFrom_found.
Qed.

Lemma length_append (s t : string) :
  String.length (s +:+ t) = (String.length s + String.length t)%nat.
Proof. induction s; str_simpl; simpl; lia. Qed.

Lemma Join_cons (e : string) (rest : list string) (sep : string) :
  rest ≠ [] → Go.Join (e :: rest) sep = e +:+ sep +:+ Go.Join rest sep.
Proof. by destruct rest. Qed.

(** ** Counting occurrences *)

Lemma occ_nil (p : string) : occ p [] = 0%nat.
Proof. done. Qed.

Lemma occ_cons (p q : string) (l : list string) :
  occ p (q :: l) = if decide (q = p) then S (occ p l) else occ p l.
Proof. unfold occ. rewrite filter_cons. by case_decide. Qed.

Lemma occ_app (p : string) (l1 l2 : list string) :
  occ p (l1 ++ l2) = (occ p l1 + occ p l2)%nat.
Proof. unfold occ. by rewrite filter_app, length_app. Qed.

Lemma occ_zero (p : string) (l : list string) : p ∉ l ↔ occ p l = 0%nat.
Proof.
  induction l as [|q l IH]; [split; [done | intros _; apply not_elem_of_nil]|].
  rewrite occ_cons, not_elem_of_cons. case_decide; subst.
  - split; [intros [? _]; done | done].
  - rewrite IH. split; [by intros [_ ?] | by split].
Qed.

Lemma occ_pos (p : string) (l : list string) : p ∈ l ↔ (0 < occ p l)%nat.
Proof.
  destruct (decide (p ∈ l)) as [Hin|Hnin].
  - split; [intros _ | done]. destruct (occ p l) eqn:Hocc; [|lia].
    by apply occ_zero in Hocc.
  - split; [done |]. apply occ_zero in Hnin. lia.
Qed.

Lemma occ_NoDup (p : string) (l : list string) : NoDup l → (occ p l ≤ 1)%nat.
Proof.
  induction 1 as [|q l Hq _ IH]; [unfold occ; simpl; lia|].
  rewrite occ_cons. case_decide; subst; [|done].
  apply occ_zero in Hq. lia.
Qed.

Lemma occ_le_length (p : string) (l : list string) : (occ p l ≤ length l)%nat.
Proof. apply length_filter. Qed.

(** ** The walk and the filter *)

Lemma fold_collect (keep : LocalRepository → bool) (l acc : list LocalRepository) :
  fold_left (collect keep) l acc = acc ++ filter (λ repo, keep repo) l.
Proof.
  revert acc. induction l as [|repo l IH]; intros acc; simpl.
  - by rewrite app_nil_r.
  - rewrite IH. unfold collect. destruct (keep repo) eqn:Hkeep.
    + rewrite filter_cons_True by (by apply Is_true_true_2). by rewrite <- app_assoc.
    + rewrite filter_cons_False by (by apply Is_true_false_2). done.
Qed.

Lemma walk_collect (w : World) (keep : LocalRepository → bool) :
  walkLocalRepositories w (collect keep) [] = selected w keep.
Proof. unfold walkLocalRepositories. by rewrite fold_collect. Qed.

(** ** Subpaths *)

Lemma Join_length_cons (e : string) (rest : list string) (sep : string) :
  rest ≠ [] →
  String.length (Go.Join (e :: rest) sep)
  = (String.length e + String.length sep + String.length (Go.Join rest sep))%nat.
Proof. intros Hrest. rewrite Join_cons by done. rewrite !length_append. lia. Qed.

(** A shorter suffix of the path parts joins to a shorter string. *)
Lemma Join_drop_shorter (l : list string) (k k' : nat) :
  (k < k' < length l)%nat →
  (String.length (Go.Join (drop k' l) "/") < String.length (Go.Join (drop k l) "/"))%nat.
Proof.
  revert k k'. induction l as [|x l IH]; intros k k' Hk; simpl in Hk; [lia|].
  destruct k' as [|k']; [lia|]. destruct k as [|k].
  - rewrite drop_0, skipn_cons. rewrite Join_length_cons by (intros ->; simpl in Hk; lia).
    destruct k' as [|k']; [rewrite drop_0; simpl; lia|].
    specialize (IH 0%nat (S k')). rewrite drop_0 in IH.
    assert (0 < S k' < length l)%nat as Hlt by lia. apply IH in Hlt. simpl. lia.
  - rewrite !skipn_cons. apply IH. lia.
Qed.

Lemma length_Subpaths (repo : LocalRepository) :
  length (Subpaths repo) = length (PathParts repo).
Proof. unfold Subpaths. by rewrite length_fmap, length_seq. Qed.

Lemma Subpaths_lookup (repo : LocalRepository) (i : nat) :
  (i < length (PathParts repo))%nat →
  Subpaths repo !! i
  = Some (Go.Join (drop (length (PathParts repo) - (i + 1)) (PathParts repo)) "/").
Proof.
  intros Hi. unfold Subpaths. rewrite list_lookup_fmap, lookup_seq_lt by done. done.
Qed.

Lemma Subpaths_lookup_inv (repo : LocalRepository) (i : nat) (p : string) :
  Subpaths repo !! i = Some p →
  (i < length (PathParts repo))%nat ∧
  p = Go.Join (drop (length (PathParts repo) - (i + 1)) (PathParts repo)) "/".
Proof.
  intros Hp. assert (i < length (PathParts repo))%nat as Hi.
  { rewrite <- length_Subpaths. by eapply lookup_lt_Some. }
  rewrite Subpaths_lookup in Hp by done. split; [done | congruence].
Qed.

(** The subpaths of one repository are pairwise different: they grow. *)
Lemma Subpaths_NoDup (repo : LocalRepository) : NoDup (Subpaths repo).
Proof.
  apply NoDup_alt. intros i j p Hi Hj.
  apply Subpaths_lookup_inv in Hi as [Hi ->]. apply Subpaths_lookup_inv in Hj as [Hj Heq].
  destruct (decide (i = j)) as [|Hne]; [done|]. exfalso.
  set (n := length (PathParts repo)) in *.
  destruct (decide (i < j)%nat).
  - pose proof (Join_drop_shorter (PathParts repo) (n - (j + 1)) (n - (i + 1))) as Hlt.
    rewrite Heq in Hlt. fold n in Hlt. lia.
  - pose proof (Join_drop_shorter (PathParts repo) (n - (i + 1)) (n - (j + 1))) as Hlt.
    rewrite Heq in Hlt. fold n in Hlt. lia.
Qed.

(** The longest subpath is the whole of the path parts. *)
Lemma Subpaths_full (repo : LocalRepository) :
  PathParts repo ≠ [] → Go.Join (PathParts repo) "/" ∈ Subpaths repo.
Proof.
  intros Hne. apply list_elem_of_lookup. exists (length (PathParts repo) - 1)%nat.
  assert (0 < length (PathParts repo))%nat by (destruct (PathParts repo); [done | simpl; lia]).
  rewrite Subpaths_lookup by lia.
  replace (length (PathParts repo) - (length (PathParts repo) - 1 + 1))%nat with 0%nat by lia.
  by rewrite drop_0.
Qed.

(** ** The frequency count *)

Lemma allSubpaths_app (l1 l2 : list LocalRepository) :
  allSubpaths (l1 ++ l2) = allSubpaths l1 ++ allSubpaths l2.
Proof. unfold allSubpaths. apply bind_app. Qed.

Lemma allSubpaths_cons (repo : LocalRepository) (l : list LocalRepository) :
  allSubpaths (repo :: l) = Subpaths repo ++ allSubpaths l.
Proof. done. Qed.

Lemma frequency_nil (p : string) : frequency [] p = 0%nat.
Proof. done. Qed.

Lemma frequency_app (l1 l2 : list LocalRepository) (p : string) :
  frequency (l1 ++ l2) p = (frequency l1 p + frequency l2 p)%nat.
Proof. unfold frequency. by rewrite allSubpaths_app, occ_app. Qed.

Lemma frequency_cons (repo : LocalRepository) (l : list LocalRepository) (p : string) :
  frequency (repo :: l) p = (occ p (Subpaths repo) + frequency l p)%nat.
Proof. unfold frequency. by rewrite allSubpaths_cons, occ_app. Qed.

Lemma frequency_le_length (l : list LocalRepository) (p : string) :
  (frequency l p ≤ length l)%nat.
Proof.
  induction l as [|repo l IH]; [done|].
  rewrite frequency_cons. pose proof (occ_NoDup p _ (Subpaths_NoDup repo)). simpl. lia.
Qed.

Lemma frequency_pos (l : list LocalRepository) (repo : LocalRepository) (p : string) :
  repo ∈ l → p ∈ Subpaths repo → (0 < frequency l p)%nat.
Proof.
  intros Hrepo Hp. apply occ_pos. unfold allSubpaths. apply list_elem_of_bind. eauto.
Qed.

(** ** The first loop of the unique listing *)

Lemma get_incr_exact (m : gmap string Z) (k k' : string) :
  0 ≤ Go.get m k → Go.get m k + 1 < 2 ^ 63 →
  Go.get (Go.incr m k) k' = if decide (k = k') then Go.get m k' + 1 else Go.get m k'.
Proof.
  intros Hlo Hhi. rewrite get_incr. case_decide; subst; [|done].
  apply wrap64_small. lia.
Qed.

Lemma countSubpaths_get (ps : list string) (m : gmap string Z) (p : string) :
  (∀ q, 0 ≤ Go.get m q) →
  (∀ q, Go.get m q + Z.of_nat (occ q ps) < 2 ^ 63) →
  Go.get (countSubpaths m ps) p = Go.get m p + Z.of_nat (occ p ps).
Proof.
  revert m. induction ps as [|q ps IH]; intros m Hlo Hhi.
  - rewrite occ_nil. simpl. lia.
  - assert (∀ k, Go.get (Go.incr m q) k
                 = if decide (q = k) then Go.get m k + 1 else Go.get m k) as Hincr.
    { intros k. apply get_incr_exact; [done|].
      specialize (Hhi q). rewrite occ_cons in Hhi. rewrite decide_True in Hhi by done. lia. }
    change (countSubpaths m (q :: ps)) with (countSubpaths (Go.incr m q) ps).
    rewrite IH.
    + rewrite Hincr, occ_cons. case_decide; lia.
    + intros k. rewrite Hincr. specialize (Hlo k). case_decide; lia.
    + intros k. rewrite Hincr. specialize (Hhi k). rewrite occ_cons in Hhi.
      case_decide; lia.
Qed.

Lemma firstCopies_length (l : list LocalRepository) (seen : list string) :
  (length (firstCopies seen l) ≤ length l)%nat.
Proof.
  revert seen. induction l as [|repo l IH]; intros seen; simpl; [done|].
  case_decide; simpl; [specialize (IH seen) | specialize (IH (RelPath repo :: seen))]; lia.
Qed.

Lemma firstCopies_snoc (pre : list LocalRepository) (repo : LocalRepository)
    (seen : list string) :
  firstCopies seen (pre ++ [repo])
  = firstCopies seen pre
    ++ (if decide (RelPath repo ∈ seen ++ (RelPath <$> pre)) then [] else [repo]).
Proof.
  revert seen. induction pre as [|a pre IH]; intros seen; simpl.
  - rewrite app_nil_r. by case_decide.
  - case_decide as Ha.
    + rewrite IH. f_equal. apply decide_ext. rewrite !elem_of_app, elem_of_cons.
      split; [tauto|]. intros [?|[->|?]]; auto.
    + simpl. rewrite IH. do 2 f_equal. apply decide_ext.
      rewrite !elem_of_app, !elem_of_cons. tauto.
Qed.

(** A relPath met for the first time is kept by [firstCopies]. *)
Lemma firstCopies_NoDup (l : list LocalRepository) (seen : list string) :
  NoDup (seen ++ (RelPath <$> l)) → firstCopies seen l = l.
Proof.
  revert seen. induction l as [|repo l IH]; intros seen Hnd; simpl; [done|].
  simpl in Hnd. apply NoDup_app in Hnd as (Hseen & Hdisj & Hl).
  apply NoDup_cons in Hl as [Hrepo Hl].
  rewrite decide_False by (intros Hin; eapply Hdisj; [done | left]).
  f_equal. apply IH. apply NoDup_cons. split.
  - rewrite elem_of_app. intros [Hin|Hin]; [|done]. eapply Hdisj; [done | left].
  - apply NoDup_app. split; [done|]. split; [|done].
    intros x Hx Hx'. eapply Hdisj; [done | by right].
Qed.

(** After the first loop, [reposCount] holds the number of copies of every
    relPath and [subpathCount] the frequency of every subpath over the first
    copies, as long as the slice is within the range of [int]. *)
Lemma countRepos_spec (repos : list LocalRepository) :
  Z.of_nat (length repos) < 2 ^ 63 →
  (∀ k, Go.get (countRepos repos).2 k = Z.of_nat (occ k (RelPath <$> repos))) ∧
  (∀ p, Go.get (countRepos repos).1 p = Z.of_nat (frequency (firstCopies [] repos) p)).
Proof.
  induction repos as [|repo pre IH] using rev_ind; intros Hlen.
  - split; intros k; unfold countRepos; simpl; by rewrite get_empty.
  - rewrite length_app in Hlen. simpl in Hlen.
    destruct IH as [IHr IHs]; [lia|].
    unfold countRepos in *. rewrite fold_left_app. simpl.
    destruct (fold_left countRepo pre (∅, ∅)) as [sc rc]. simpl in *.
    pose proof (occ_le_length (RelPath repo) (RelPath <$> pre)) as Hocc.
    rewrite length_fmap in Hocc.
    split.
    + intros k. rewrite get_incr_exact by (rewrite IHr; lia).
      rewrite fmap_app, occ_app, IHr. simpl. rewrite occ_cons, occ_nil.
      case_decide; lia.
    + intros p. rewrite firstCopies_snoc, frequency_app. simpl.
      rewrite IHr. destruct (Z.eqb_spec (Z.of_nat (occ (RelPath repo) (RelPath <$> pre))) 0)
        as [Hz|Hz].
      * rewrite decide_False by (apply occ_zero; lia).
        rewrite countSubpaths_get.
        -- rewrite IHs, frequency_cons, frequency_nil. lia.
        -- intros q. rewrite IHs. lia.
        -- intros q. rewrite IHs.
           pose proof (frequency_le_length (firstCopies [] pre) q).
           pose proof (firstCopies_length pre []).
           pose proof (occ_NoDup q _ (Subpaths_NoDup repo)). lia.
      * rewrite decide_True by (apply occ_pos; lia).
        rewrite IHs, frequency_nil. lia.
Qed.

(** ** Running the loops *)

Lemma bind_run {A B} (m : M A) (k : A → M B) (tr tr' : list Event) (a : A) :
  m tr = (Returns a, tr') → M_bind m k tr = k a tr'.
Proof. intros Hm. unfold M_bind. by rewrite Hm. Qed.

Lemma forM_prints {A} (f : A → option string) (body : A → M unit) (l : list A)
    (tr : list Event) :
  (∀ x tr', body x tr' = (Returns (), tr' ++ (EvPrintln <$> option_list (f x)))) →
  forM_ l body tr = (Returns (), tr ++ (EvPrintln <$> omap f l)).
Proof.
  intros Hbody. revert tr. induction l as [|x l IH]; intros tr; csimpl.
  - unfold M_ret. by rewrite app_nil_r.
  - erewrite bind_run by apply Hbody. rewrite IH.
    destruct (f x); simpl; [by rewrite <- app_assoc | by rewrite app_nil_r].
Qed.

Lemma forM_logs {A} (g : A → Event) (body : A → M unit) (l : list A) (tr : list Event) :
  (∀ x tr', body x tr' = (Returns (), tr' ++ [g x])) →
  forM_ l body tr = (Returns (), tr ++ (g <$> l)).
Proof.
  intros Hbody. revert tr. induction l as [|x l IH]; intros tr; simpl.
  - unfold M_ret. by rewrite app_nil_r.
  - erewrite bind_run by apply Hbody. rewrite IH. by rewrite <- app_assoc.
Qed.

Lemma printFirstUnique_run (c : gmap string Z) (ps : list string) (tr : list Event) :
  printFirstUnique c ps tr
  = (Returns (), tr ++ (EvPrintln <$> option_list (firstUnique c ps))).
Proof.
  induction ps as [|p ps IH]; simpl.
  - unfold M_ret. by rewrite app_nil_r.
  - by destruct (Go.get c p =? 1).
Qed.

Lemma printUnique_run (w : World) (repos : list LocalRepository) (tr : list Event) :
  printUnique w repos tr = (Returns (), tr ++ (EvPrintln <$> uniqueLines w repos)).
Proof.
  unfold printUnique, uniqueLines. destruct (countRepos repos) as [sc rc].
  apply forM_prints. intros repo tr'.
  destruct (_ && _); [unfold M_ret; simpl; by rewrite app_nil_r|].
  apply printFirstUnique_run.
Qed.

Lemma firstUnique_Some (c : gmap string Z) (ps : list string) (p : string) :
  firstUnique c ps = Some p ↔
  ∃ i : nat, ps !! i = Some p ∧ Go.get c p = 1 ∧
    ∀ (j : nat) (q : string), (j < i)%nat → ps !! j = Some q → Go.get c q ≠ 1.
Proof.
  induction ps as [|q ps IH]; simpl.
  - split; [done | by intros (i & ? & _)].
  - destruct (Z.eqb_spec (Go.get c q) 1) as [Hq|Hq].
    + split.
      * intros [= ->]. exists 0%nat. repeat split; [done|]. intros; lia.
      * intros ([|i] & Hi & Hp & Hfirst); [by simplify_eq/=|].
        destruct (Hfirst 0%nat q); [lia | done | done].
    + rewrite IH. split.
      * intros (i & Hi & Hp & Hfirst). exists (S i). repeat split; [done..|].
        intros [|j] q' Hj Hq'; simplify_eq/=; [done|]. eapply Hfirst; [|done]. lia.
      * intros ([|i] & Hi & Hp & Hfirst); simplify_eq/=.
        exists i. repeat split; [done..|]. intros j q' Hj Hq'.
        apply (Hfirst (S j)); [lia | done].
Qed.

Lemma firstUnique_None (c : gmap string Z) (ps : list string) :
  firstUnique c ps = None → ∀ p, p ∈ ps → Go.get c p ≠ 1.
Proof.
  induction ps as [|q ps IH]; simpl; intros Hnone p Hp.
  - by apply elem_of_nil in Hp.
  - destruct (Z.eqb_spec (Go.get c q) 1) as [Hq|Hq]; [done|].
    apply elem_of_cons in Hp as [->|Hp]; [done | by apply IH].
Qed.

Lemma firstUnique_elem (c : gmap string Z) (ps : list string) (p : string) :
  firstUnique c ps = Some p → p ∈ ps.
Proof.
  intros (i & Hi & _)%firstUnique_Some. apply list_elem_of_lookup. eauto.
Qed.

(** Lines chosen among subpaths whose frequency is 1 are pairwise different. *)
Lemma unique_lines_NoDup (all : list LocalRepository) (f : LocalRepository → option string)
    (pre l : list LocalRepository) :
  all = pre ++ l →
  (∀ repo p, f repo = Some p → p ∈ Subpaths repo ∧ frequency all p = 1%nat) →
  NoDup (omap f l).
Proof.
  intros Hall Hf. revert pre Hall. induction l as [|repo l IH]; intros pre Hall; csimpl.
  - apply NoDup_nil_2.
  - assert (NoDup (omap f l)) as Hl.
    { apply (IH (pre ++ [repo])). by rewrite <- app_assoc. }
    destruct (f repo) as [p|] eqn:Hrepo; [|done].
    apply NoDup_cons. split; [|done].
    intros (repo' & Hrepo' & Hp')%list_elem_of_omap.
    destruct (Hf _ _ Hrepo) as [Hin Hfreq]. destruct (Hf _ _ Hp') as [Hin' _].
    rewrite Hall, frequency_app, frequency_cons in Hfreq.
    apply occ_pos in Hin. pose proof (frequency_pos l repo' p Hrepo' Hin'). lia.
Qed.

Lemma Forall2_omap {A B} (P : A → B → Prop) (f : A → option B) (l : list A) :
  (∀ x, x ∈ l → ∃ y, f x = Some y ∧ P x y) → Forall2 P l (omap f l).
Proof.
  induction l as [|x l IH]; intros Hl; csimpl; [constructor|].
  destruct (Hl x) as (y & -> & Hy); [left|].
  constructor; [done|]. apply IH. intros x' Hx'. apply Hl. by right.
Qed.

(** ** The unique listing *)

Lemma omap_ext_in {A B} (f g : A → option B) (l : list A) :
  (∀ x, x ∈ l → f x = g x) → omap f l = omap g l.
Proof.
  induction l as [|x l IH]; intros Hfg; csimpl; [done|].
  rewrite (Hfg x) by left. rewrite IH; [done|]. intros y Hy. apply Hfg. by right.
Qed.

Section Listing.
Context (w : World).

(** [doList] in unique mode prints the lines [uniqueLines], whatever the
    full-path flag. *)
Lemma doList_unique_run (query : string) (exact printFullPaths : bool) (tr : list Event) :
  doList w query exact printFullPaths true tr
  = (Returns (), tr ++ (EvPrintln <$> uniqueLines w (selected w (filterFn query exact)))).
Proof. unfold doList. rewrite walk_collect. apply printUnique_run. Qed.

(** With pairwise different relPaths every repository is counted and none is
    skipped: its line is the first subpath of frequency 1. *)
Lemma uniqueLines_distinct (repos : list LocalRepository) :
  Z.of_nat (length repos) < 2 ^ 63 →
  NoDup (RelPath <$> repos) →
  ∃ c : gmap string Z,
    (∀ p, Go.get c p = Z.of_nat (frequency repos p)) ∧
    uniqueLines w repos = omap (λ repo, firstUnique c (Subpaths repo)) repos.
Proof.
  intros Hlen Hnd. destruct (countRepos_spec repos Hlen) as [Hrc Hsc].
  rewrite firstCopies_NoDup in Hsc by done.
  unfold uniqueLines. destruct (countRepos repos) as [sc rc]. simpl in *.
  exists sc. split; [done|].
  apply omap_ext_in. intros repo Hrepo.
  assert (occ (RelPath repo) (RelPath <$> repos) ≤ 1)%nat by by apply occ_NoDup.
  rewrite Hrc. by destruct (Z.ltb_spec 1 (Z.of_nat (occ (RelPath repo) (RelPath <$> repos)))); [lia|].
Qed.

(** In a set of repositories with pairwise different relPaths, the whole path
    of a repository that is no subpath of another one has frequency 1. *)
Lemma frequency_full_path (repos : list LocalRepository) (repo : LocalRepository) :
  NoDup (RelPath <$> repos) →
  repo ∈ repos →
  PathParts repo ≠ [] →
  (∀ repo', repo' ∈ repos → repo' ≠ repo →
     Go.Join (PathParts repo) "/" ∉ Subpaths repo') →
  frequency repos (Go.Join (PathParts repo) "/") = 1%nat.
Proof.
  intros Hnd Hrepo Hparts Hother. apply NoDup_fmap_1 in Hnd.
  apply list_elem_of_split in Hrepo as (pre & post & ->).
  apply NoDup_app in Hnd as (_ & Hpre & Hpost). apply NoDup_cons in Hpost as [Hpost _].
  rewrite frequency_app, frequency_cons.
  assert (∀ l, (∀ repo', repo' ∈ l → repo' ∈ pre ++ repo :: post ∧ repo' ≠ repo) →
            frequency l (Go.Join (PathParts repo) "/") = 0%nat) as Hzero.
  { intros l Hl. apply occ_zero. unfold allSubpaths.
    intros (repo' & Hin & Hrepo')%list_elem_of_bind.
    destruct (Hl _ Hrepo') as [? ?]. by eapply Hother. }
  rewrite !Hzero.
  - pose proof (occ_NoDup (Go.Join (PathParts repo) "/") _ (Subpaths_NoDup repo)).
    pose proof (Subpaths_full repo Hparts) as Hfull. apply occ_pos in Hfull. lia.
  - intros repo' Hin. split; [rewrite elem_of_app, elem_of_cons; auto|].
    intros ->. done.
  - intros repo' Hin. split; [rewrite elem_of_app; auto|].
    intros ->. by eapply Hpre; [|left].
Qed.

(** Which copies [firstCopies] keeps: those with no earlier copy of the same
    relPath. *)
Lemma firstCopies_elem (l : list LocalRepository) (seen : list string)
    (repo : LocalRepository) :
  repo ∈ firstCopies seen l ↔
  ∃ i : nat, l !! i = Some repo ∧ (RelPath repo ∉ seen) ∧
    ∀ (j : nat) (r : LocalRepository), (j < i)%nat → l !! j = Some r →
      RelPath r ≠ RelPath repo.
Proof.
  revert seen. induction l as [|a l IH]; intros seen; simpl.
  - split; [by intros ?%elem_of_nil | by intros (i & ? & _)].
  - case_decide as Ha.
    + rewrite IH. split.
      * intros (i & Hi & Hseen & Hfirst). exists (S i). repeat split; [done..|].
        intros [|j] r Hj Hr; simplify_eq/=; [congruence|]. eapply Hfirst; [|done]. lia.
      * intros ([|i] & Hi & Hseen & Hfirst); simplify_eq/=; [done|].
        exists i. repeat split; [done..|]. intros j r Hj Hr.
        apply (Hfirst (S j)); [lia | done].
    + rewrite elem_of_cons, IH. split.
      * intros [->|(i & Hi & Hseen & Hfirst)].
        -- exists 0%nat. repeat split; [done..|]. intros; lia.
        -- apply not_elem_of_cons in Hseen as [Hne Hseen].
           exists (S i). repeat split; [done..|].
           intros [|j] r Hj Hr; simplify_eq/=; [congruence|]. eapply Hfirst; [|done]. lia.
      * intros ([|i] & Hi & Hseen & Hfirst); simplify_eq/=; [by left|]. right.
        exists i. repeat split; [done| |].
        -- apply not_elem_of_cons. split; [|done].
           intros Heq. by apply (Hfirst 0%nat a); [lia| |].
        -- intros j r Hj Hr. apply (Hfirst (S j)); [lia | done].
Qed.

(** C1 (amended): for repositories with pairwise different relPaths, none of
    them without path parts, in which the whole path of no repository is a
    subpath of another one, the unique listing prints for each repository
    exactly one line, the first of its subpaths, shortest first, whose global
    frequency count is 1, and no two lines are equal.  (The length of the
    slice is within the range of [int], as for every Go slice, so that the
    counters do not wrap.) *)
Theorem unique_listing_assigns_one_each (query : string) (exact printFullPaths : bool)
    (tr : list Event) :
  let repos := selected w (filterFn query exact) in
  Z.of_nat (length repos) < 2 ^ 63 →
  NoDup (RelPath <$> repos) →
  (∀ repo, repo ∈ repos → PathParts repo ≠ []) →
  (∀ repo repo', repo ∈ repos → repo' ∈ repos → repo' ≠ repo →
     Go.Join (PathParts repo) "/" ∉ Subpaths repo') →
  ∃ lines : list string,
    doList w query exact printFullPaths true tr = (Returns (), tr ++ (EvPrintln <$> lines)) ∧
    Forall2 (assigned repos) repos lines ∧
    NoDup lines.
Proof.
  intros repos Hlen Hnd Hparts Hfull.
  destruct (uniqueLines_distinct repos Hlen Hnd) as (c & Hc & Hlines).
  exists (uniqueLines w repos). split; [apply doList_unique_run|].
  rewrite Hlines.
  assert (∀ repo p, firstUnique c (Subpaths repo) = Some p → assigned repos repo p) as Hassigned.
  { intros repo p (i & Hi & Hp & Hfirst)%firstUnique_Some. exists i.
    rewrite Hc in Hp. repeat split; [done | lia |].
    intros j q Hj Hq Hfreq. apply (Hfirst j q Hj Hq). rewrite Hc. lia. }
  split.
  - apply Forall2_omap. intros repo Hrepo.
    destruct (firstUnique c (Subpaths repo)) as [p|] eqn:Hp; [eauto|].
    exfalso. apply (firstUnique_None _ _ Hp (Go.Join (PathParts repo) "/")).
    + apply Subpaths_full. auto.
    + rewrite Hc, frequency_full_path; [done..| auto |]. intros repo' ? ?. by apply Hfull.
  - apply (unique_lines_NoDup repos _ []); [done|].
    intros repo p Hp. split; [by eapply firstUnique_elem|].
    by destruct (Hassigned _ _ Hp) as (i & _ & ? & _).
Qed.

(** C5 (amended): the subpath frequency count of the unique listing is built
    over the full subpath lists of exactly the first copy, in walk order, of
    every relPath: later copies of a relPath are never counted, and a relPath
    with no copy under the primary root still contributes its first copy.
    (The length of the slice is within the range of [int], as for every Go
    slice.) *)
Theorem subpath_count_over_first_copies (repos : list LocalRepository) :
  Z.of_nat (length repos) < 2 ^ 63 →
  (∀ p, Go.get (countRepos repos).1 p = Z.of_nat (frequency (firstCopies [] repos) p)) ∧
  (∀ repo, repo ∈ firstCopies [] repos ↔
     ∃ i : nat, repos !! i = Some repo ∧
       ∀ (j : nat) (r : LocalRepository), (j < i)%nat → repos !! j = Some r →
         RelPath r ≠ RelPath repo).
Proof.
  intros Hlen. split; [by apply countRepos_spec|].
  intros repo. rewrite firstCopies_elem. split.
  - intros (i & ? & _ & ?). eauto.
  - intros (i & ? & ?). exists i. repeat split; [done | apply not_elem_of_nil | done].
Qed.

(** C10: in unique mode the lines printed do not depend on the full-path flag,
    and each of them is a subpath of a listed repository, a suffix of its path
    parts joined by the separator, never its full path. *)
Theorem unique_listing_ignores_full_path (query : string) (exact : bool) (tr : list Event) :
  ∃ lines : list string,
    (∀ printFullPaths : bool,
       doList w query exact printFullPaths true tr
       = (Returns (), tr ++ (EvPrintln <$> lines))) ∧
    (∀ line, line ∈ lines →
       ∃ (repo : LocalRepository) (k : nat),
         repo ∈ selected w (filterFn query exact) ∧
         line ∈ Subpaths repo ∧
         (k < length (PathParts repo))%nat ∧
         line = Go.Join (drop k (PathParts repo)) "/").
Proof.
  exists (uniqueLines w (selected w (filterFn query exact))).
  split; [intros; apply doList_unique_run|].
  intros line. unfold uniqueLines. destruct (countRepos _) as [sc rc].
  intros (repo & Hrepo & Hline)%list_elem_of_omap.
  destruct (_ && _); [done|]. apply firstUnique_elem in Hline.
  pose proof Hline as [i Hi]%list_elem_of_lookup.
  apply Subpaths_lookup_inv in Hi as [Hi ->].
  exists repo, (length (PathParts repo) - (i + 1))%nat.
  repeat split; [done | done | lia].
Qed.

(** Without the unique flag the full-path flag chooses what is printed. *)
Lemma doList_plain_run (query : string) (exact printFullPaths : bool) (tr : list Event) :
  doList w query exact printFullPaths false tr
  = (Returns (),
     tr ++ (EvPrintln <$> ((if printFullPaths then FullPath else RelPath)
                            <$> selected w (filterFn query exact)))).
Proof.
  unfold doList. rewrite walk_collect.
  rewrite (forM_logs (λ repo, EvPrintln ((if printFullPaths then FullPath else RelPath) repo))).
  - by rewrite <- list_fmap_compose.
  - intros repo tr'. by destruct printFullPaths.
Qed.

(** With pairwise different relPaths no line is printed twice, whatever the
    layout. *)
Lemma uniqueLines_NoDup (repos : list LocalRepository) :
  Z.of_nat (length repos) < 2 ^ 63 →
  NoDup (RelPath <$> repos) →
  NoDup (uniqueLines w repos).
Proof.
  intros Hlen Hnd. destruct (uniqueLines_distinct repos Hlen Hnd) as (c & Hc & ->).
  apply (unique_lines_NoDup repos _ []); [done|].
  intros repo p Hp. split; [by eapply firstUnique_elem|].
  apply firstUnique_Some in Hp as (_ & _ & Hp & _). rewrite Hc in Hp. lia.
Qed.

End Listing.

(** C6 (amended): in substring mode a repository is kept exactly when its
    non-host path, the path parts after the host joined by the separator,
    contains the query as a contiguous substring. *)
Theorem substring_filter_on_non_host_path (repo : LocalRepository) (query : string) :
  filterFn query false repo = true ↔
  ∃ before after : string, NonHostPath repo = before +:+ query +:+ after.
Proof.
  unfold filterFn. case_decide as Hq.
  - subst. split; [intros _; by exists "", (NonHostPath repo) | done].
  - apply Contains_spec.
Qed.

(** C4: scenarios A and B.  With [alice/foo] under [/r1] and [bob/foo] under
    [/r2] the unique listing prints [alice/foo] and [bob/foo], the count of
    [foo] being 2; with [alice/foo] alone it prints [foo]. *)
Theorem scenario_unique_listing :
  (∀ exact printFullPaths : bool,
     doList (listingWorld [aliceFoo; bobFoo]) "" exact printFullPaths true []
     = (Returns (), [EvPrintln "alice/foo"; EvPrintln "bob/foo"])) ∧
  Go.get (countRepos [aliceFoo; bobFoo]).1 "foo" = 2 ∧
  (∀ exact printFullPaths : bool,
     doList (listingWorld [aliceFoo]) "" exact printFullPaths true []
     = (Returns (), [EvPrintln "foo"])).
Proof.
  split; [|split]; [intros [] [] | | intros [] []]; by vm_compute.
Qed.

(** ** Repositories at one depth *)

Lemma noSep_not_split (part before after : string) :
  noSep part → part ≠ before +:+ "/" +:+ after.
Proof.
  unfold noSep. intros Hpart Heq.
  assert (Go.Contains part "/" = true) by (apply Contains_spec; eauto). congruence.
Qed.

Lemma noSep_tail (a : Ascii.ascii) (part : string) : noSep (String a part) → noSep part.
Proof.
  unfold noSep. intros Hpart. destruct (Go.Contains part "/") eqn:Hc; [|done].
  apply Contains_spec in Hc as (before & after & ->).
  by destruct (noSep_not_split _ (String a before) after Hpart).
Qed.

Lemma append_sep_inj (a b s t : string) :
  noSep a → noSep b → a +:+ "/" +:+ s = b +:+ "/" +:+ t → a = b ∧ s = t.
Proof.
  revert b. induction a as [|c a IH]; intros [|d b] Ha Hb Heq; str_simpl.
  - split; [done | congruence].
  - injection Heq as <- _. by destruct (noSep_not_split _ "" b Hb).
  - injection Heq as -> _. by destruct (noSep_not_split _ "" a Ha).
  - injection Heq as -> Heq.
    destruct (IH b) as [-> ->]; [by eapply noSep_tail.. | done | done].
Qed.

(** Joining separator-free parts loses nothing. *)
Lemma Join_inj (l l' : list string) :
  l ≠ [] → l' ≠ [] → Forall noSep l → Forall noSep l' →
  Go.Join l "/" = Go.Join l' "/" → l = l'.
Proof.
  revert l'. induction l as [|x l IH]; intros [|y l'] Hl Hl' Hsep Hsep' Heq; try done.
  apply Forall_cons in Hsep as [Hx Hsep]. apply Forall_cons in Hsep' as [Hy Hsep'].
  destruct l as [|x2 l], l' as [|y2 l'].
  - simpl in Heq. by subst.
  - rewrite (Join_cons y) in Heq by done. simpl in Heq.
    by destruct (noSep_not_split _ _ _ Hx Heq).
  - rewrite (Join_cons x) in Heq by done. simpl in Heq.
    by destruct (noSep_not_split _ _ _ Hy (eq_sym Heq)).
  - rewrite (Join_cons x), (Join_cons y) in Heq by done.
    apply append_sep_inj in Heq as [-> Heq]; [|done..].
    f_equal. by apply IH.
Qed.

Lemma NoDup_fmap_inj_on {A B} (f : A → B) (l : list A) (x y : A) :
  NoDup (f <$> l) → x ∈ l → y ∈ l → f x = f y → x = y.
Proof.
  induction l as [|a l IH]; csimpl; intros Hnd Hx Hy Hxy; [by apply elem_of_nil in Hx|].
  apply NoDup_cons in Hnd as [Ha Hnd].
  apply elem_of_cons in Hx as [->|Hx]; apply elem_of_cons in Hy as [->|Hy]; auto.
  - destruct Ha. rewrite Hxy. by apply list_elem_of_fmap_2.
  - destruct Ha. rewrite <- Hxy. by apply list_elem_of_fmap_2.
Qed.

(** In the layout of the spec, where every relPath is the join of as many
    separator-free parts (host, owner, name), the whole path of a repository
    is no subpath of another one. *)
Lemma same_depth_no_shared_full_path (repos : list LocalRepository) (depth : nat) :
  NoDup (RelPath <$> repos) →
  (∀ repo, repo ∈ repos →
     RelPath repo = Go.Join (PathParts repo) "/" ∧
     length (PathParts repo) = depth ∧
     Forall noSep (PathParts repo)) →
  ∀ repo repo', repo ∈ repos → repo' ∈ repos → repo' ≠ repo →
    Go.Join (PathParts repo) "/" ∉ Subpaths repo'.
Proof.
  intros Hnd Hlayout repo repo' Hrepo Hrepo' Hne Hin.
  destruct (Hlayout _ Hrepo) as (Hrel & Hlen & Hsep).
  destruct (Hlayout _ Hrepo') as (Hrel' & Hlen' & Hsep').
  apply list_elem_of_lookup in Hin as [i Hi].
  apply Subpaths_lookup_inv in Hi as [Hi Heq]. rewrite Hlen' in *.
  apply Join_inj in Heq.
  - assert (length (PathParts repo) = length (drop (depth - (i + 1)) (PathParts repo')))
      as Hlens by by rewrite <- Heq.
    rewrite length_drop, Hlen, Hlen' in Hlens.
    replace (depth - (i + 1))%nat with 0%nat in Heq by lia. rewrite drop_0 in Heq.
    apply Hne. apply (NoDup_fmap_inj_on RelPath repos); [done..|]. congruence.
  - intros Hnil. rewrite Hnil in Hlen. simpl in Hlen. lia.
  - intros Hnil. apply (f_equal length) in Hnil. rewrite length_drop, Hlen' in Hnil.
    simpl in Hnil. lia.
  - done.
  - by apply Forall_drop.
Qed.

(** ** Sync *)

Ltac run_monad :=
  unfold Log, Println, ShowCommandHelp, Clone, Update, PanicIf, DieIf, ErrorIf;
  unfold M_bind, M_ret, ask, observe, emit, exit, panic, replaced;
  simpl; rewrite <- ?app_assoc; simpl.

Section Sync.
Context (w : World).

(** What [getRemoteRepository] does, case by case. *)
Lemma getRemoteRepository_run (remote : RemoteRepository) (doUpdate isShallow : bool)
    (tr : list Event) :
  let remoteURL := URL remote in
  let local := LocalRepositoryFromURL w remoteURL in
  let path := FullPath local in
  getRemoteRepository w remote doUpdate isShallow tr =
  match os_Stat w tr path with
  | StatError _ => (Panics, tr ++ [EvStat path])
  | StatNotExist =>
      match VCS remote with
      | None =>
          (Exits 1,
           tr ++ [EvStat path;
                  EvLog "clone" (URL_String remoteURL +:+ " -> " +:+ path);
                  EvLog "error" ("Could not find version control system: "
                                 +:+ URL_String remoteURL)])
      | Some vcs =>
          (Returns (),
           tr ++ [EvStat path;
                  EvLog "clone" (URL_String remoteURL +:+ " -> " +:+ path);
                  EvClone vcs remoteURL path isShallow])
      end
  | StatOk =>
      if doUpdate then
        match LocalVCS w (tr ++ [EvStat path; EvLog "update" path]) local with
        | None => (Panics, tr ++ [EvStat path; EvLog "update" path])
        | Some vcs => (Returns (), tr ++ [EvStat path; EvLog "update" path; EvUpdate vcs path])
        end
      else (Returns (), tr ++ [EvStat path; EvLog "exists" path])
  end.
Proof.
  intros remoteURL local path. unfold getRemoteRepository. run_monad.
  fold remoteURL. fold local. fold path.
  destruct (os_Stat w tr path); simpl.
  - destruct doUpdate; run_monad; [|done].
    by destruct (LocalVCS w _ local); run_monad.
  - destruct (VCS remote); by run_monad.
  - done.
Qed.

(** [doGet] once the argument is resolved to a remote. *)
Lemma doGet_resolved (argURL : string) (doUpdate isShallow isSSH : bool)
    (url0 url : url_URL) (remote : RemoteRepository) (tr : list Event) :
  argURL ≠ "" →
  NewURL w argURL = inr url0 →
  (if isSSH then ConvertGitURLHTTPToSSH w url0 else inr url0) = inr url →
  NewRemoteRepository w url = inr remote →
  doGet w argURL doUpdate isShallow isSSH tr =
  if IsValid remote then getRemoteRepository w remote doUpdate isShallow tr
  else (Exits 1, tr ++ [EvLog "error" ("Not a valid repository: " +:+ URL_String url)]).
Proof.
  intros Harg Hurl0 Hurl Hremote. unfold doGet.
  rewrite decide_False by done. rewrite Hurl0. run_monad.
  destruct isSSH; [rewrite Hurl | injection Hurl as ->]; simpl; rewrite Hremote; simpl;
    destruct (IsValid remote); by run_monad.
Qed.

(** C2: the three cases of sync.  When the target is absent the driver of the
    remote clones into it; when it is present and an update is asked for, the
    driver of the local clone updates it; when it is present and no update is
    asked for, the target is reported as existing and the driver is not called. *)
Theorem sync_three_way (remote : RemoteRepository) (doUpdate isShallow : bool)
    (tr : list Event) :
  let remoteURL := URL remote in
  let local := LocalRepositoryFromURL w remoteURL in
  let path := FullPath local in
  (∀ vcs, os_Stat w tr path = StatNotExist → VCS remote = Some vcs →
     getRemoteRepository w remote doUpdate isShallow tr
     = (Returns (),
        tr ++ [EvStat path;
               EvLog "clone" (URL_String remoteURL +:+ " -> " +:+ path);
               EvClone vcs remoteURL path isShallow])) ∧
  (∀ vcs, os_Stat w tr path = StatOk → doUpdate = true →
     LocalVCS w (tr ++ [EvStat path; EvLog "update" path]) local = Some vcs →
     getRemoteRepository w remote doUpdate isShallow tr
     = (Returns (), tr ++ [EvStat path; EvLog "update" path; EvUpdate vcs path])) ∧
  (os_Stat w tr path = StatOk → doUpdate = false →
     getRemoteRepository w remote doUpdate isShallow tr
     = (Returns (), tr ++ [EvStat path; EvLog "exists" path])).
Proof.
  intros remoteURL local path. rewrite getRemoteRepository_run.
  fold remoteURL. fold local. fold path.
  repeat split.
  - by intros vcs -> ->.
  - by intros vcs -> -> ->.
  - by intros -> ->.
Qed.

(** C3 (amended): a remote that is not valid never reaches sync, [doGet] logs
    the error and exits before anything is looked up on disk, cloned or
    updated; a remote whose backend is nil aborts with an error before clone,
    after the existence check, when its target is absent. *)
Theorem invalid_remote_aborts :
  (∀ (argURL : string) (doUpdate isShallow isSSH : bool) (url0 url : url_URL)
     (remote : RemoteRepository) (tr : list Event),
     argURL ≠ "" →
     NewURL w argURL = inr url0 →
     (if isSSH then ConvertGitURLHTTPToSSH w url0 else inr url0) = inr url →
     NewRemoteRepository w url = inr remote →
     IsValid remote = false →
     doGet w argURL doUpdate isShallow isSSH tr
     = (Exits 1, tr ++ [EvLog "error" ("Not a valid repository: " +:+ URL_String url)])) ∧
  (∀ (remote : RemoteRepository) (doUpdate isShallow : bool) (tr : list Event),
     VCS remote = None →
     os_Stat w tr (FullPath (LocalRepositoryFromURL w (URL remote))) = StatNotExist →
     getRemoteRepository w remote doUpdate isShallow tr
     = (Exits 1,
        tr ++ [EvStat (FullPath (LocalRepositoryFromURL w (URL remote)));
               EvLog "clone" (URL_String (URL remote) +:+ " -> "
                              +:+ FullPath (LocalRepositoryFromURL w (URL remote)));
               EvLog "error" ("Could not find version control system: "
                              +:+ URL_String (URL remote))])).
Proof.
  split.
  - intros argURL doUpdate isShallow isSSH url0 url remote tr Harg Hurl0 Hurl Hremote Hvalid.
    rewrite (doGet_resolved argURL doUpdate isShallow isSSH url0 url remote) by done.
    by rewrite Hvalid.
  - intros remote doUpdate isShallow tr Hvcs Hstat.
    rewrite getRemoteRepository_run. simpl. by rewrite Hstat, Hvcs.
Qed.

(** C9: the check for a nil backend guards the clone branch only.  Sync exits
    with an error exactly when the target is absent and the backend of the
    remote is nil; when the target exists and an update is asked for, the
    backend is the one of the local clone, whatever the remote's, and [Update]
    is called on it unguarded: a nil backend there is a nil dereference. *)
Theorem unknown_vcs_guard_only_on_clone (remote : RemoteRepository)
    (doUpdate isShallow : bool) (tr : list Event) :
  let local := LocalRepositoryFromURL w (URL remote) in
  let path := FullPath local in
  ((getRemoteRepository w remote doUpdate isShallow tr).1 = Exits 1 ↔
   os_Stat w tr path = StatNotExist ∧ VCS remote = None) ∧
  (os_Stat w tr path = StatOk →
   getRemoteRepository w remote true isShallow tr =
   match LocalVCS w (tr ++ [EvStat path; EvLog "update" path]) local with
   | Some vcs => (Returns (), tr ++ [EvStat path; EvLog "update" path; EvUpdate vcs path])
   | None => (Panics, tr ++ [EvStat path; EvLog "update" path])
   end).
Proof.
  intros local path. rewrite !getRemoteRepository_run. fold local. fold path. split.
  - destruct (os_Stat w tr path); simpl.
    + split; [|by intros [? _]].
      destruct doUpdate; [|done]. by destruct (LocalVCS w _ local).
    + destruct (VCS remote); simpl; split; try done. by intros [_ ?].
    + split; [done | by intros [? _]].
  - by intros ->.
Qed.

End Sync.

(** The claim C3 as stated fails for a valid remote whose backend is nil when
    its target exists: with the update flag the existence check is made and
    [Update] is called on the backend of the local clone. *)
Lemma unknown_vcs_reaches_update :
  (∃ remote, NewRemoteRepository (sampleWorld "/r1" [] StatOk (Some GitBackend) unknownRemote)
               {| URL_String := "example.com/project" |} = inr remote ∧
             VCS remote = None) ∧
  doGet (sampleWorld "/r1" [] StatOk (Some GitBackend) unknownRemote)
    "example.com/project" true false false []
  = (Returns (),
     [EvStat "/r1/example.com/project";
      EvLog "update" "/r1/example.com/project";
      EvUpdate GitBackend "/r1/example.com/project"]).
Proof. split; [by eexists | by vm_compute]. Qed.

(** ** Single-target resolution *)

Lemma reportCandidates_run (reposFound : list LocalRepository) (tr : list Event) :
  reportCandidates reposFound tr = (Returns (), tr ++ candidateLines reposFound).
Proof.
  unfold reportCandidates, candidateLines.
  erewrite bind_run by reflexivity.
  erewrite forM_logs by reflexivity. by rewrite <- app_assoc.
Qed.

Section Resolution.
Context (w : World).

(** C7: single-target resolution in [doWhich] and [doLook].  Without a match
    an error is reported; with exactly one match its full path is printed
    ([doWhich]) or entered ([doLook]) and no error is reported; with more
    matches an error is reported that lists the path parts of every candidate,
    and none is printed or entered.  An empty query shows the help and exits
    with status 1. *)
Theorem single_target_resolution (name : string) (tr : list Event) :
  let found := selected w (λ repo, Matches repo name) in
  (name = "" →
     doWhich w name tr = (Exits 1, tr ++ [EvShowCommandHelp "which"]) ∧
     doLook w name tr = (Exits 1, tr ++ [EvShowCommandHelp "look"])) ∧
  (name ≠ "" → found = [] →
     doWhich w name tr = (Returns (), tr ++ [EvLog "error" "No repository found"]) ∧
     doLook w name tr = (Returns (), tr ++ [EvLog "error" "No repository found"])) ∧
  (∀ repo, name ≠ "" → found = [repo] →
     doWhich w name tr = (Returns (), tr ++ [EvPrintln (FullPath repo)]) ∧
     doLook w name tr =
     if decide (runtime_GOOS w = "windows") then
       match cmd_Start w tr with
       | None =>
           (Exits 0, tr ++ [EvStart (os_Getenv w "COMSPEC") (FullPath repo); EvWait])
       | Some _ =>
           (Returns (), tr ++ [EvStart (os_Getenv w "COMSPEC") (FullPath repo)])
       end
     else
       let shell := if decide (os_Getenv w "SHELL" = "") then "/bin/sh"
                    else os_Getenv w "SHELL" in
       match os_Chdir w (tr ++ [EvLog "cd" (FullPath repo)]) (FullPath repo) with
       | Some _ => (Panics, tr ++ [EvLog "cd" (FullPath repo); EvChdir (FullPath repo)])
       | None =>
           (match syscall_Exec w (tr ++ [EvLog "cd" (FullPath repo); EvChdir (FullPath repo)])
            with
            | None => Replaced
            | Some _ => Returns ()
            end,
            tr ++ [EvLog "cd" (FullPath repo); EvChdir (FullPath repo); EvExec shell])
       end) ∧
  (name ≠ "" → (1 < length found)%nat →
     doWhich w name tr = (Returns (), tr ++ candidateLines found) ∧
     doLook w name tr = (Returns (), tr ++ candidateLines found)).
Proof.
  intros found. unfold doWhich, doLook. rewrite !walk_collect. fold found.
  split; [|split; [|split]].
  - intros ->. split; by run_monad.
  - intros Hname ->. rewrite !decide_False by done. split; by run_monad.
  - intros repo Hname ->. rewrite !decide_False by done. split; [by run_monad|].
    run_monad. case_decide; run_monad.
    + by destruct (cmd_Start w tr); run_monad.
    + destruct (os_Chdir w _ (FullPath repo)); run_monad; [done|].
      by destruct (syscall_Exec w _); run_monad.
  - intros Hname Hlen. rewrite !decide_False by done.
    destruct found as [|r1 [|r2 l]]; simpl in Hlen; [lia..|].
    split; (erewrite bind_run by reflexivity); apply reportCandidates_run.
Qed.

End Resolution.

(** ** Batch import *)

Section BatchImport.
Context (w : World).

Lemma importStarredRepository_recoverable (doUpdate isSSH isShallow : bool)
    (repo : github_Repository) (html : string) (msg : Event) (tr : list Event) :
  HTMLURL repo = Some html →
  Recoverable w isSSH html (Sprint_pointer w (HTMLURL repo)) msg →
  importStarredRepository w doUpdate isSSH isShallow repo tr = (Returns (), tr ++ [msg]).
Proof.
  intros Hhtml Hrec. unfold importStarredRepository. rewrite Hhtml.
  destruct Hrec as [err Hparse|url err Hparse -> Hconv|url0 url err Hparse Hconv Hremote
                    |url0 url remote Hparse Hconv Hremote Hvalid];
    rewrite <- ?Hhtml; run_monad; rewrite Hparse; run_monad; try done.
  - rewrite Hconv. by run_monad.
  - destruct isSSH; [rewrite Hconv | injection Hconv as ->]; run_monad;
      rewrite Hremote; by run_monad.
  - destruct isSSH; [rewrite Hconv | injection Hconv as ->]; run_monad;
      rewrite Hremote, Hvalid; by run_monad.
Qed.

Lemma importPocketItem_recoverable (doUpdate isShallow : bool) (item : pocket_Item)
    (msg : Event) (tr : list Event) :
  Recoverable w false (ResolvedURL item) (ResolvedURL item) msg →
  importPocketItem w doUpdate isShallow item tr = (Returns (), tr ++ [msg]).
Proof.
  intros Hrec. unfold importPocketItem.
  destruct Hrec as [err Hparse|url err Hparse [=] Hconv|url0 url err Hparse [= ->] Hremote
                    |url0 url remote Hparse [= ->] Hremote Hvalid];
    rewrite Hparse; run_monad; try done.
  - rewrite Hremote. by run_monad.
  - rewrite Hremote, Hvalid. by run_monad.
Qed.

(** C8: a recoverable failure of one target of a batch import does not stop
    the batch.  In the loop of [doImportStarred] and in the loop of
    [doImportPocket], a target whose URL cannot be parsed or converted to SSH,
    or whose remote cannot be made or is not valid, adds one log line, and the
    loop goes on with the next target. *)
Theorem batch_import_continues (doUpdate isSSH isShallow : bool) :
  (∀ (repo : github_Repository) (html : string) (msg : Event)
     (rest : list github_Repository) (tr : list Event),
     HTMLURL repo = Some html →
     Recoverable w isSSH html (Sprint_pointer w (HTMLURL repo)) msg →
     forM_ (repo :: rest) (importStarredRepository w doUpdate isSSH isShallow) tr
     = forM_ rest (importStarredRepository w doUpdate isSSH isShallow) (tr ++ [msg])) ∧
  (∀ (item : pocket_Item) (msg : Event) (rest : list pocket_Item) (tr : list Event),
     Recoverable w false (ResolvedURL item) (ResolvedURL item) msg →
     importPocketItems w doUpdate isShallow (item :: rest) tr
     = importPocketItems w doUpdate isShallow rest (tr ++ [msg])).
Proof.
  split.
  - intros repo html msg rest tr Hhtml Hrec. simpl.
    erewrite bind_run; [done|]. by eapply importStarredRepository_recoverable.
  - intros item msg rest tr Hrec. unfold importPocketItems. simpl.
    erewrite bind_run; [done|]. by eapply importPocketItem_recoverable.
Qed.


(** The same for a page of starred repositories, and for the page loop on the
    last page. *)
Lemma starred_all_recoverable (doUpdate isSSH isShallow : bool)
    (repos : list github_Repository) :
  Forall (λ repo, ∃ html msg,
            HTMLURL repo = Some html ∧
            Recoverable w isSSH html (Sprint_pointer w (HTMLURL repo)) msg) repos →
  ∃ logged : list Event,
    length logged = length repos ∧
    ∀ tr, forM_ repos (importStarredRepository w doUpdate isSSH isShallow) tr
          = (Returns (), tr ++ logged).
Proof.
  induction 1 as [|repo repos (html & msg & Hhtml & Hmsg) _ (logged & Hlen & Hrun)].
  - exists []. split; [done|]. intros tr. simpl. unfold M_ret. by rewrite app_nil_r.
  - exists (msg :: logged). split; [simpl; by rewrite Hlen|]. intros tr. simpl.
    erewrite bind_run by (by eapply importStarredRepository_recoverable).
    rewrite Hrun. by rewrite <- app_assoc.
Qed.

Lemma importStarredPages_last_page (fuel : nat) (user : string)
    (doUpdate isSSH isShallow : bool) (page lastPage : Z)
    (repos : list github_Repository) (tr : list Event) :
  ListStarred w tr user page = inr (repos, lastPage) →
  lastPage ≤ page →
  Forall (λ repo, ∃ html msg,
            HTMLURL repo = Some html ∧
            Recoverable w isSSH html (Sprint_pointer w (HTMLURL repo)) msg) repos →
  ∃ logged : list Event,
    length logged = length repos ∧
    importStarredPages w (S fuel) user doUpdate isSSH isShallow page tr
    = (Returns true,
       tr ++ EvListStarred user page
          :: EvLog "page" (pretty page +:+ "/" +:+ pretty lastPage) :: logged).
Proof.
  intros Hlist Hlast Hrepos.
  destruct (starred_all_recoverable doUpdate isSSH isShallow repos Hrepos)
    as (logged & Hlen & Hrun).
  exists logged. split; [done|]. simpl. run_monad. rewrite Hlist. run_monad.
  rewrite Hrun. rewrite (proj2 (Z.leb_le _ _)) by done. by rewrite <- app_assoc.
Qed.

(** A failure that is not among the recoverable ones: a valid remote with no
    backend whose target is absent ends the batch with exit status 1. *)
Lemma importPocketItems_unknown_vcs_exits (doUpdate isShallow : bool) (item : pocket_Item)
    (rest : list pocket_Item) (url : url_URL) (remote : RemoteRepository)
    (tr : list Event) :
  url_Parse w (ResolvedURL item) = inr url →
  NewRemoteRepository w url = inr remote →
  IsValid remote = true →
  VCS remote = None →
  os_Stat w tr (FullPath (LocalRepositoryFromURL w (URL remote))) = StatNotExist →
  (importPocketItems w doUpdate isShallow (item :: rest) tr).1 = Exits 1.
Proof.
  intros Hparse Hremote Hvalid Hvcs Hstat.
  unfold importPocketItems. simpl. unfold M_bind at 1. unfold importPocketItem.
  rewrite Hparse, Hremote, Hvalid. simpl.
  pose proof (getRemoteRepository_run w remote doUpdate isShallow tr) as Hrun.
  simpl in Hrun. rewrite Hstat, Hvcs in Hrun. by rewrite Hrun.
Qed.

End BatchImport.

(** ** The listing on the sample environments *)

Ltac by_compute := apply (bool_decide_unpack _); vm_compute; exact I.

Lemma Forall_in {A} (P : A → Prop) (l : list A) : Forall P l → ∀ x, x ∈ l → P x.
Proof. apply Forall_forall. Defined.

Lemma unique_listing_assigns_one_each_witness :
  ∃ lines : list string,
    doList (listingWorld [aliceFoo; bobFoo]) "" false false true []
    = (Returns (), [] ++ (EvPrintln <$> lines)) ∧
    Forall2 (assigned (selected (listingWorld [aliceFoo; bobFoo]) (filterFn "" false)))
      (selected (listingWorld [aliceFoo; bobFoo]) (filterFn "" false)) lines ∧
    NoDup lines.
Proof.
  apply (unique_listing_assigns_one_each (listingWorld [aliceFoo; bobFoo]) "" false false []).
  - by vm_compute.
  - by_compute.
  - apply (Forall_in (λ repo, PathParts repo ≠ [])). by_compute.
  - intros repo repo' Hrepo. revert repo'.
    apply (Forall_in (λ repo', repo' ≠ repo → Go.Join (PathParts repo) "/" ∉ Subpaths repo')).
    revert repo Hrepo.
    apply (Forall_in (λ repo, Forall (λ repo', repo' ≠ repo →
                                Go.Join (PathParts repo) "/" ∉ Subpaths repo') _)).
    by_compute.
Defined.

(** The claim C1 as stated fails where path parts of one repository are a
    suffix of those of another: the relPaths differ, yet only one line is
    printed for the two repositories. *)
Lemma unique_listing_omits_suffix_repository :
  NoDup (RelPath <$> selected (listingWorld nestedLayout) (filterFn "" false)) ∧
  doList (listingWorld nestedLayout) "" false false true []
  = (Returns (), [EvPrintln "github.com/alice/foo"]) ∧
  ¬ ∃ lines : list string,
      doList (listingWorld nestedLayout) "" false false true []
      = (Returns (), [] ++ (EvPrintln <$> lines)) ∧
      Forall2 (assigned (selected (listingWorld nestedLayout) (filterFn "" false)))
        (selected (listingWorld nestedLayout) (filterFn "" false)) lines.
Proof.
  split; [by_compute|]. split; [by vm_compute|].
  intros (lines & Hrun & Hlines). apply Forall2_length in Hlines.
  assert (length (EvPrintln <$> lines) = 1%nat) as Hlen.
  { change (doList (listingWorld nestedLayout) "" false false true [])
      with (@Returns unit (), [EvPrintln "github.com/alice/foo"]) in Hrun.
    by injection Hrun as <-. }
  rewrite length_fmap in Hlen. rewrite <- Hlines in Hlen. by vm_compute in Hlen.
Qed.

Lemma subpath_count_over_first_copies_witness :
  (∀ p, Go.get (countRepos copiesOutsidePrimary).1 p
        = Z.of_nat (frequency (firstCopies [] copiesOutsidePrimary) p)) ∧
  (∀ repo, repo ∈ firstCopies [] copiesOutsidePrimary ↔
     ∃ i : nat, copiesOutsidePrimary !! i = Some repo ∧
       ∀ (j : nat) (r : LocalRepository), (j < i)%nat → copiesOutsidePrimary !! j = Some r →
         RelPath r ≠ RelPath repo).
Proof.
  apply (subpath_count_over_first_copies copiesOutsidePrimary). by vm_compute.
Defined.

(** The claim C5 as stated fails for a relPath cloned under two roots that are
    not the primary one: none of its copies is eligible, yet the subpaths of
    its first copy are counted, and [foo] is taken when [bob/foo] under the
    primary root is listed. *)
Lemma subpath_count_counts_ineligible_copy :
  Go.get (countRepos copiesOutsidePrimary).1 "foo" = 1 ∧
  specFrequency (listingWorld copiesOutsidePrimary) copiesOutsidePrimary "foo" = 0%nat ∧
  doList (listingWorld (copiesOutsidePrimary ++ [repoAt "/r1" ["github.com"; "bob"; "foo"]]))
    "" false false true []
  = (Returns (), [EvPrintln "bob/foo"]).
Proof. repeat split; by vm_compute. Qed.

(** The claim C6 as stated fails for a query found in the host part only. *)
Lemma substring_filter_misses_host :
  (∃ before after : string, RelPath aliceFoo = before +:+ "github" +:+ after) ∧
  filterFn "github" false aliceFoo = false.
Proof. split; [by exists "", ".com/alice/foo" | by vm_compute]. Qed.

(** ** Sync, resolution and import on the sample environments *)

Lemma sync_three_way_witness :
  getRemoteRepository absentWorld aliceFooRemote false true []
  = (Returns (),
     [EvStat "/r1/github.com/alice/foo";
      EvLog "clone" "github.com/alice/foo -> /r1/github.com/alice/foo";
      EvClone GitBackend {| URL_String := "github.com/alice/foo" |}
        "/r1/github.com/alice/foo" true]) ∧
  getRemoteRepository presentWorld aliceFooRemote true false []
  = (Returns (),
     [EvStat "/r1/github.com/alice/foo";
      EvLog "update" "/r1/github.com/alice/foo";
      EvUpdate GitBackend "/r1/github.com/alice/foo"]) ∧
  getRemoteRepository presentWorld aliceFooRemote false false []
  = (Returns (),
     [EvStat "/r1/github.com/alice/foo"; EvLog "exists" "/r1/github.com/alice/foo"]).
Proof.
  split; [|split].
  - apply (proj1 (sync_three_way absentWorld aliceFooRemote false true []) GitBackend);
      reflexivity.
  - apply (proj1 (proj2 (sync_three_way presentWorld aliceFooRemote true false []))
             GitBackend); reflexivity.
  - apply (proj2 (proj2 (sync_three_way presentWorld aliceFooRemote false false [])));
      reflexivity.
Defined.

Lemma invalid_remote_aborts_witness :
  doGet invalidWorld "example.com/page" true false false []
  = (Exits 1, [EvLog "error" "Not a valid repository: example.com/page"]) ∧
  getRemoteRepository absentWorld aliceFooUnknown true false []
  = (Exits 1,
     [EvStat "/r1/github.com/alice/foo";
      EvLog "clone" "github.com/alice/foo -> /r1/github.com/alice/foo";
      EvLog "error" "Could not find version control system: github.com/alice/foo"]).
Proof.
  split.
  - apply (proj1 (invalid_remote_aborts invalidWorld) "example.com/page" true false false
             {| URL_String := "example.com/page" |} {| URL_String := "example.com/page" |}
             {| URL := {| URL_String := "example.com/page" |}; IsValid := false; VCS := None |}
             []); [by vm_compute | reflexivity..].
  - apply (proj2 (invalid_remote_aborts absentWorld) aliceFooUnknown true false []);
      reflexivity.
Defined.

Lemma unknown_vcs_guard_only_on_clone_witness :
  getRemoteRepository presentWorld aliceFooUnknown true false []
  = (Returns (),
     [EvStat "/r1/github.com/alice/foo";
      EvLog "update" "/r1/github.com/alice/foo";
      EvUpdate GitBackend "/r1/github.com/alice/foo"]).
Proof.
  apply (proj2 (unknown_vcs_guard_only_on_clone presentWorld aliceFooUnknown true false []));
    reflexivity.
Defined.

Lemma single_target_resolution_witness :
  (doWhich absentWorld "" [] = (Exits 1, [EvShowCommandHelp "which"]) ∧
   doLook absentWorld "" [] = (Exits 1, [EvShowCommandHelp "look"])) ∧
  (doWhich absentWorld "carol/foo" [] = (Returns (), [EvLog "error" "No repository found"]) ∧
   doLook absentWorld "carol/foo" [] = (Returns (), [EvLog "error" "No repository found"])) ∧
  (doWhich absentWorld "alice/foo" [] = (Returns (), [EvPrintln "/r1/github.com/alice/foo"]) ∧
   doLook absentWorld "alice/foo" []
   = (Replaced,
      [EvLog "cd" "/r1/github.com/alice/foo"; EvChdir "/r1/github.com/alice/foo";
       EvExec "/bin/sh"])) ∧
  (doWhich absentWorld "foo" [] = (Returns (), candidateLines [aliceFoo; bobFoo]) ∧
   doLook absentWorld "foo" [] = (Returns (), candidateLines [aliceFoo; bobFoo])).
Proof.
  split; [|split; [|split]].
  - apply (proj1 (single_target_resolution absentWorld "" [])). reflexivity.
  - apply (proj1 (proj2 (single_target_resolution absentWorld "carol/foo" [])));
      [by vm_compute | by vm_compute].
  - apply (proj1 (proj2 (proj2 (single_target_resolution absentWorld "alice/foo" [])))
             aliceFoo); [by vm_compute | by vm_compute].
  - apply (proj2 (proj2 (proj2 (single_target_resolution absentWorld "foo" []))));
      [by vm_compute | vm_compute; lia].
Defined.

Lemma batch_import_continues_witness :
  forM_ [{| HTMLURL := Some "::" |}; {| HTMLURL := Some "github.com/alice/foo" |}]
    (importStarredRepository presentWorld false false false) []
  = forM_ [{| HTMLURL := Some "github.com/alice/foo" |}]
      (importStarredRepository presentWorld false false false)
      [EvLog "error" "Could not parse URL <%!s(*string=0xc000010000)>: parse error"] ∧
  importPocketItems invalidWorld false false
    [{| ResolvedURL := "example.com/page" |}; {| ResolvedURL := "::" |}] []
  = importPocketItems invalidWorld false false [{| ResolvedURL := "::" |}]
      [EvLog "skip" "Not a valid repository: example.com/page"].
Proof.
  split.
  - apply (proj1 (batch_import_continues presentWorld false false false)
             {| HTMLURL := Some "::" |} "::"
             (EvLog "error" "Could not parse URL <%!s(*string=0xc000010000)>: parse error")
             [{| HTMLURL := Some "github.com/alice/foo" |}] []); [reflexivity|].
    exact (UnparsableURL presentWorld false "::" "%!s(*string=0xc000010000)" "parse error"
             eq_refl).
  - apply (proj2 (batch_import_continues invalidWorld false false false)
             {| ResolvedURL := "example.com/page" |}
             (EvLog "skip" "Not a valid repository: example.com/page")
             [{| ResolvedURL := "::" |}] []).
    exact (InvalidRepository invalidWorld false "example.com/page" "example.com/page"
             {| URL_String := "example.com/page" |} {| URL_String := "example.com/page" |}
             {| URL := {| URL_String := "example.com/page" |};
                IsValid := false; VCS := None |} eq_refl eq_refl eq_refl eq_refl).
Defined.

(** ** More on sync *)

Section SyncMore.
Context (w : World).

(** What [doGet] does, step by step. *)
Lemma doGet_run (argURL : string) (doUpdate isShallow isSSH : bool) (tr : list Event) :
  doGet w argURL doUpdate isShallow isSSH tr =
  if decide (argURL = "") then (Exits 1, tr ++ [EvShowCommandHelp "get"])
  else
    match NewURL w argURL with
    | inl err => (Exits 1, tr ++ [EvLog "error" err])
    | inr url0 =>
        match (if isSSH then ConvertGitURLHTTPToSSH w url0 else inr url0) with
        | inl err => (Exits 1, tr ++ [EvLog "error" err])
        | inr url =>
            match NewRemoteRepository w url with
            | inl err => (Exits 1, tr ++ [EvLog "error" err])
            | inr remote =>
                if IsValid remote then getRemoteRepository w remote doUpdate isShallow tr
                else (Exits 1,
                      tr ++ [EvLog "error" ("Not a valid repository: " +:+ URL_String url)])
            end
        end
    end.
Proof.
  unfold doGet. case_decide; [by run_monad|].
  destruct (NewURL w argURL) as [err|url0]; run_monad; [done|].
  destruct isSSH; [destruct (ConvertGitURLHTTPToSSH w url0) as [err|url]|]; run_monad;
    try done.
  - destruct (NewRemoteRepository w url) as [err|remote]; run_monad; [done|].
    destruct (IsValid remote); by run_monad.
  - destruct (NewRemoteRepository w url0) as [err|remote]; run_monad; [done|].
    destruct (IsValid remote); by run_monad.
Qed.

(** X1: the flags that do not apply are without effect.  When the target is
    not absent, sync does the same with and without [isShallow]; when it is
    absent, sync does the same with and without [doUpdate]. *)
Theorem sync_flags_without_effect (remote : RemoteRepository)
    (doUpdate doUpdate' isShallow isShallow' : bool) (tr : list Event) :
  let path := FullPath (LocalRepositoryFromURL w (URL remote)) in
  (os_Stat w tr path ≠ StatNotExist →
     getRemoteRepository w remote doUpdate isShallow tr
     = getRemoteRepository w remote doUpdate isShallow' tr) ∧
  (os_Stat w tr path = StatNotExist →
     getRemoteRepository w remote doUpdate isShallow tr
     = getRemoteRepository w remote doUpdate' isShallow tr).
Proof.
  intros path. rewrite !getRemoteRepository_run. fold path.
  split; intros Hstat; by destruct (os_Stat w tr path).
Qed.

(** X2: sync looks the target up first, then calls the driver at most once,
    and not at all in a run that panics or exits. *)
Theorem sync_calls_driver_at_most_once (remote : RemoteRepository)
    (doUpdate isShallow : bool) (tr : list Event) :
  ∃ events : list Event,
    (getRemoteRepository w remote doUpdate isShallow tr).2
    = tr ++ EvStat (FullPath (LocalRepositoryFromURL w (URL remote))) :: events ∧
    (length (driverCalls events) ≤ 1)%nat ∧
    ((getRemoteRepository w remote doUpdate isShallow tr).1 ≠ Returns () →
       driverCalls events = []).
Proof.
  rewrite getRemoteRepository_run. simpl.
  destruct (os_Stat w tr _); [destruct doUpdate; [destruct (LocalVCS w _ _)|]
                             | destruct (VCS remote) |];
    eexists; (split; [reflexivity|]); simpl; split; try done; try (cbv; lia).
Qed.

(** X3: [doGet] either syncs a valid remote, made of the URL of the argument
    (of its SSH form with [-p]), or exits with status 1 after one message, the
    help or an error, without looking anything up on disk. *)
Theorem doGet_syncs_or_exits (argURL : string) (doUpdate isShallow isSSH : bool)
    (tr : list Event) :
  (∃ (url0 url : url_URL) (remote : RemoteRepository),
     NewURL w argURL = inr url0 ∧
     (if isSSH then ConvertGitURLHTTPToSSH w url0 else inr url0) = inr url ∧
     NewRemoteRepository w url = inr remote ∧
     IsValid remote = true ∧
     doGet w argURL doUpdate isShallow isSSH tr
     = getRemoteRepository w remote doUpdate isShallow tr) ∨
  (∃ e : Event,
     doGet w argURL doUpdate isShallow isSSH tr = (Exits 1, tr ++ [e]) ∧
     (e = EvShowCommandHelp "get" ∨ ∃ message, e = EvLog "error" message)).
Proof.
  rewrite doGet_run. case_decide; [right; eauto|].
  destruct (NewURL w argURL) as [err|url0]; [right; eauto|].
  destruct (if isSSH then _ else _) as [err|url] eqn:Hurl; [right; eauto|].
  destruct (NewRemoteRepository w url) as [err|remote] eqn:Hremote; [right; eauto|].
  destruct (IsValid remote) eqn:Hvalid; [|right; eauto].
  left. exists url0, url, remote. by rewrite Hurl, Hremote, Hvalid.
Qed.

(** X4: an import performs [get].  For a target whose URL both parsers read
    alike and whose remote is valid, one round of either import loop does what
    [doGet] does on that URL. *)
Theorem import_performs_get (doUpdate isSSH isShallow : bool) :
  (∀ (repo : github_Repository) (html : string) (url0 url : url_URL)
     (remote : RemoteRepository) (tr : list Event),
     HTMLURL repo = Some html → html ≠ "" →
     url_Parse w html = inr url0 → NewURL w html = inr url0 →
     (if isSSH then ConvertGitURLHTTPToSSH w url0 else inr url0) = inr url →
     NewRemoteRepository w url = inr remote → IsValid remote = true →
     importStarredRepository w doUpdate isSSH isShallow repo tr
     = doGet w html doUpdate isShallow isSSH tr) ∧
  (∀ (item : pocket_Item) (url : url_URL) (remote : RemoteRepository) (tr : list Event),
     ResolvedURL item ≠ "" →
     url_Parse w (ResolvedURL item) = inr url → NewURL w (ResolvedURL item) = inr url →
     NewRemoteRepository w url = inr remote → IsValid remote = true →
     importPocketItem w doUpdate isShallow item tr
     = doGet w (ResolvedURL item) doUpdate isShallow false tr).
Proof.
  split.
  - intros repo html url0 url remote tr Hhtml Hne Hparse Hnew Hurl Hremote Hvalid.
    rewrite doGet_run, decide_False, Hnew, Hurl, Hremote, Hvalid by done.
    unfold importStarredRepository. rewrite Hhtml. run_monad. rewrite Hparse. run_monad.
    destruct isSSH; [rewrite Hurl | injection Hurl as ->]; run_monad;
      by rewrite Hremote, Hvalid.
  - intros item url remote tr Hne Hparse Hnew Hremote Hvalid.
    rewrite doGet_run, decide_False, Hnew, Hremote, Hvalid by done.
    unfold importPocketItem. by rewrite Hparse, Hremote, Hvalid.
Qed.

End SyncMore.

(** ** More on listing and resolution *)

Lemma filter_ext_bool {A} (f g : A → bool) (l : list A) :
  (∀ x, x ∈ l → f x = g x) → filter (λ x, f x) l = filter (λ x, g x) l.
Proof.
  induction l as [|x l IH]; intros Hfg; [done|].
  rewrite !filter_cons, (Hfg x) by left. rewrite IH; [done|].
  intros y Hy. apply Hfg. by right.
Qed.

Lemma filter_all {A} (f : A → bool) (l : list A) :
  (∀ x, x ∈ l → f x = true) → filter (λ x, f x) l = l.
Proof.
  induction l as [|x l IH]; intros Hf; [done|].
  rewrite filter_cons_True by (apply Is_true_true_2, Hf; left).
  f_equal. apply IH. intros y Hy. apply Hf. by right.
Qed.

Lemma filter_none {A} (f : A → bool) (l : list A) :
  (∀ x, x ∈ l → f x = false) → filter (λ x, f x) l = [].
Proof.
  induction l as [|x l IH]; intros Hf; [done|].
  rewrite filter_cons_False by (apply Is_true_false_2, Hf; left).
  apply IH. intros y Hy. apply Hf. by right.
Qed.

Lemma omap_filter {A B} (f : A → option B) (keep : A → bool) (l : list A) :
  (∀ x, keep x = false → f x = None) → omap f l = omap f (filter (λ x, keep x) l).
Proof.
  intros Hf. induction l as [|x l IH]; [done|].
  destruct (keep x) eqn:Hx.
  - rewrite filter_cons_True by by apply Is_true_true_2. csimpl. by rewrite IH.
  - rewrite filter_cons_False by by apply Is_true_false_2. csimpl. by rewrite (Hf x Hx).
Qed.

Lemma length_omap_le {A B} (f : A → option B) (l : list A) :
  (length (omap f l) ≤ length l)%nat.
Proof. induction l as [|x l IH]; csimpl; [done|]. destruct (f x); simpl; lia. Qed.

Lemma Matches_spec (repo : LocalRepository) (p : string) :
  Matches repo p = true ↔ p ∈ Subpaths repo.
Proof. unfold Matches. by rewrite bool_decide_eq_true. Qed.

Lemma occ_Subpaths (repo : LocalRepository) (p : string) :
  occ p (Subpaths repo) = if Matches repo p then 1%nat else 0%nat.
Proof.
  destruct (Matches repo p) eqn:Hm.
  - apply Matches_spec in Hm. pose proof (occ_NoDup p _ (Subpaths_NoDup repo)).
    apply occ_pos in Hm. lia.
  - apply occ_zero. intros Hin%Matches_spec. congruence.
Qed.

(** A subpath of frequency 1 is matched by one repository only. *)
Lemma Matches_unique (l : list LocalRepository) (repo : LocalRepository) (p : string) :
  frequency l p = 1%nat → repo ∈ l → p ∈ Subpaths repo →
  filter (λ r, Matches r p) l = [repo].
Proof.
  induction l as [|a l IH]; intros Hfreq Hrepo Hp; [by apply elem_of_nil in Hrepo|].
  rewrite frequency_cons, occ_Subpaths in Hfreq.
  destruct (Matches a p) eqn:Ha.
  - rewrite filter_cons_True by by apply Is_true_true_2.
    assert (frequency l p = 0%nat) as Hzero by lia.
    apply elem_of_cons in Hrepo as [->|Hrepo].
    + f_equal. apply filter_none. intros r Hr.
      destruct (Matches r p) eqn:Hr'; [|done]. apply Matches_spec in Hr'.
      pose proof (frequency_pos l r p Hr Hr'). lia.
    + pose proof (frequency_pos l repo p Hrepo Hp). lia.
  - rewrite filter_cons_False by by apply Is_true_false_2.
    apply elem_of_cons in Hrepo as [->|Hrepo].
    + apply Matches_spec in Hp. congruence.
    + apply IH; [lia | done | done].
Qed.

(** A subpath of two repositories has a frequency of 2 at least. *)
Lemma frequency_shared (l : list LocalRepository) (r1 r2 : LocalRepository) (p : string) :
  r1 ∈ l → r2 ∈ l → r1 ≠ r2 → p ∈ Subpaths r1 → p ∈ Subpaths r2 →
  (2 ≤ frequency l p)%nat.
Proof.
  induction l as [|a l IH]; intros H1 H2 Hne Hp1 Hp2; [by apply elem_of_nil in H1|].
  rewrite frequency_cons.
  apply elem_of_cons in H1 as [->|H1]; apply elem_of_cons in H2 as [->|H2]; try done.
  - apply occ_pos in Hp1. pose proof (frequency_pos l r2 p H2 Hp2). lia.
  - apply occ_pos in Hp2. pose proof (frequency_pos l r1 p H1 Hp1). lia.
  - specialize (IH H1 H2 Hne Hp1 Hp2). lia.
Qed.

Section ListingMore.
Context (w : World).

Lemma selected_empty_query (exact : bool) : selected w (filterFn "" exact) = walked w.
Proof. unfold selected. by apply filter_all. Qed.

Lemma selected_exact (name : string) :
  name ≠ "" → selected w (filterFn name true) = selected w (λ repo, Matches repo name).
Proof.
  intros Hname. unfold selected. apply filter_ext_bool. intros repo _.
  unfold filterFn. by rewrite decide_False.
Qed.

Lemma doWhich_one (name : string) (repo : LocalRepository) (tr : list Event) :
  name ≠ "" → selected w (λ r, Matches r name) = [repo] →
  doWhich w name tr = (Returns (), tr ++ [EvPrintln (FullPath repo)]).
Proof.
  intros Hname Hfound. unfold doWhich. rewrite walk_collect, Hfound.
  rewrite decide_False by done. by run_monad.
Qed.

(** The gate of the second loop is the eligibility of the spec. *)
Lemma skip_not_eligible (repos : list LocalRepository) (repo : LocalRepository) :
  Z.of_nat (length repos) < 2 ^ 63 →
  (1 <? Go.get (countRepos repos).2 (RelPath repo)) && negb (IsUnderPrimaryRoot w repo)
  = negb (specEligible w repos repo).
Proof.
  intros Hlen. destruct (countRepos_spec repos Hlen) as [Hrc _]. rewrite Hrc.
  unfold specEligible. rewrite negb_orb. f_equal.
  destruct (Z.ltb_spec 1 (Z.of_nat (occ (RelPath repo) (RelPath <$> repos)))).
  - by rewrite bool_decide_eq_false_2 by lia.
  - by rewrite bool_decide_eq_true_2 by lia.
Qed.

(** X5: without the unique flag one line is printed for every selected
    repository, in walk order, its full path with the full-path flag and its
    relative path without; an empty query selects every repository found,
    whatever the exact flag. *)
Theorem plain_listing_in_walk_order (query : string) (exact printFullPaths : bool)
    (tr : list Event) :
  doList w query exact printFullPaths false tr
  = (Returns (),
     tr ++ (EvPrintln <$> ((if printFullPaths then FullPath else RelPath)
                            <$> filter (λ repo, filterFn query exact repo) (walked w)))) ∧
  filter (λ repo, filterFn "" exact repo) (walked w) = walked w.
Proof. split; [apply doList_plain_run | apply selected_empty_query]. Qed.

(** X6: in unique mode lines come from eligible repositories only.  No line
    is printed for a copy, not under the primary root, of a relPath found more
    than once, and there are no more lines than eligible repositories. *)
Theorem unique_listing_only_eligible (query : string) (exact printFullPaths : bool)
    (tr : list Event) :
  let repos := selected w (filterFn query exact) in
  Z.of_nat (length repos) < 2 ^ 63 →
  ∃ lines : list string,
    doList w query exact printFullPaths true tr = (Returns (), tr ++ (EvPrintln <$> lines)) ∧
    (length lines ≤ length (filter (λ repo, specEligible w repos repo) repos))%nat ∧
    (∀ line, line ∈ lines →
       ∃ repo, repo ∈ repos ∧ specEligible w repos repo = true ∧ line ∈ Subpaths repo).
Proof.
  intros repos Hlen. exists (uniqueLines w repos). split; [apply doList_unique_run|].
  pose proof (skip_not_eligible repos) as Hskip.
  unfold uniqueLines. destruct (countRepos repos) as [sc rc]. simpl in Hskip. split.
  - rewrite (omap_filter _ (specEligible w repos)); [apply length_omap_le|].
    intros repo Hrepo. by rewrite Hskip, Hrepo.
  - intros line (repo & Hrepo & Hline)%list_elem_of_omap. exists repo.
    rewrite Hskip in Hline by done. destruct (specEligible w repos repo); [|done].
    simpl in Hline. split; [done|]. split; [done|]. by eapply firstUnique_elem.
Qed.

(** X7: a line of the unique listing names its repository.  When the relPaths
    found are pairwise different, [doWhich] on a non-empty line of the unique
    listing of everything finds exactly one repository, one that has the line
    among its subpaths, and prints its full path. *)
Theorem unique_line_resolves (exact printFullPaths : bool) (tr : list Event) :
  Z.of_nat (length (walked w)) < 2 ^ 63 →
  NoDup (RelPath <$> walked w) →
  ∃ lines : list string,
    doList w "" exact printFullPaths true tr = (Returns (), tr ++ (EvPrintln <$> lines)) ∧
    ∀ line, line ∈ lines → line ≠ "" →
      ∃ repo, repo ∈ walked w ∧ line ∈ Subpaths repo ∧
        ∀ tr', doWhich w line tr' = (Returns (), tr' ++ [EvPrintln (FullPath repo)]).
Proof.
  intros Hlen Hnd. exists (uniqueLines w (walked w)). split.
  { rewrite doList_unique_run. by rewrite selected_empty_query. }
  destruct (uniqueLines_distinct w (walked w) Hlen Hnd) as (c & Hc & ->).
  intros line (repo & Hrepo & Hline)%list_elem_of_omap Hne.
  pose proof (firstUnique_elem _ _ _ Hline) as Hin.
  apply firstUnique_Some in Hline as (_ & _ & Hfreq & _). rewrite Hc in Hfreq.
  exists repo. split; [done|]. split; [done|]. intros tr'.
  apply doWhich_one; [done|]. apply Matches_unique; [lia | done | done].
Qed.

(** X8: a subpath that two of the listed repositories share is never
    printed, when their relPaths are pairwise different. *)
Theorem shared_subpath_never_printed (query : string) (exact printFullPaths : bool)
    (r1 r2 : LocalRepository) (p : string) (tr : list Event) :
  let repos := selected w (filterFn query exact) in
  Z.of_nat (length repos) < 2 ^ 63 →
  NoDup (RelPath <$> repos) →
  r1 ∈ repos → r2 ∈ repos → r1 ≠ r2 → p ∈ Subpaths r1 → p ∈ Subpaths r2 →
  ∃ lines : list string,
    doList w query exact printFullPaths true tr = (Returns (), tr ++ (EvPrintln <$> lines)) ∧
    p ∉ lines.
Proof.
  intros repos Hlen Hnd H1 H2 Hne Hp1 Hp2.
  exists (uniqueLines w repos). split; [apply doList_unique_run|].
  destruct (uniqueLines_distinct w repos Hlen Hnd) as (c & Hc & ->).
  intros (repo & Hrepo & Hline)%list_elem_of_omap.
  apply firstUnique_Some in Hline as (_ & _ & Hfreq & _). rewrite Hc in Hfreq.
  pose proof (frequency_shared repos r1 r2 p H1 H2 Hne Hp1 Hp2). lia.
Qed.

(** X9: an exact listing shows the candidates of [doWhich].  For a non-empty
    name, the exact listing prints one line for every repository the name
    matches; when there is exactly one, the exact listing with full paths
    prints what [doWhich] prints. *)
Theorem exact_listing_agrees_with_which (name : string) (printFullPaths : bool)
    (tr : list Event) :
  name ≠ "" →
  doList w name true printFullPaths false tr
  = (Returns (),
     tr ++ (EvPrintln <$> ((if printFullPaths then FullPath else RelPath)
                            <$> selected w (λ repo, Matches repo name)))) ∧
  (∀ repo, selected w (λ repo, Matches repo name) = [repo] →
     doList w name true true false tr = doWhich w name tr).
Proof.
  intros Hname. rewrite !doList_plain_run, selected_exact by done. split; [done|].
  intros repo Hfound. rewrite (doWhich_one name repo) by done. by rewrite Hfound.
Qed.

(** X10: the whole relative path always resolves.  When every relPath found
    is the join of as many separator-free parts and no relPath is found twice,
    [doWhich] on the joined path parts of a repository found prints the full
    path of that repository. *)
Theorem which_full_path_resolves (depth : nat) (repo : LocalRepository) (tr : list Event) :
  NoDup (RelPath <$> walked w) →
  (∀ r, r ∈ walked w →
     RelPath r = Go.Join (PathParts r) "/" ∧
     length (PathParts r) = depth ∧
     Forall noSep (PathParts r)) →
  repo ∈ walked w →
  Go.Join (PathParts repo) "/" ≠ "" →
  doWhich w (Go.Join (PathParts repo) "/") tr
  = (Returns (), tr ++ [EvPrintln (FullPath repo)]).
Proof.
  intros Hnd Hlayout Hrepo Hname. apply doWhich_one; [done|].
  assert (PathParts repo ≠ []) as Hparts by (intros Hnil; by rewrite Hnil in Hname).
  pose proof (same_depth_no_shared_full_path (walked w) depth Hnd Hlayout) as Hother.
  unfold selected. apply NoDup_fmap_1 in Hnd.
  apply list_elem_of_split in Hrepo as (pre & post & Hsplit).
  assert (∀ r, r ∈ pre ++ post → Matches r (Go.Join (PathParts repo) "/") = false) as Hno.
  { intros r Hr. destruct (Matches r _) eqn:Hm; [|done]. apply Matches_spec in Hm.
    rewrite Hsplit in Hnd, Hother.
    apply NoDup_app in Hnd as (_ & Hpre & Hpost). apply NoDup_cons in Hpost as [Hpost _].
    destruct (Hother repo r).
    - rewrite elem_of_app, elem_of_cons. auto.
    - rewrite elem_of_app, elem_of_cons. apply elem_of_app in Hr as [?|?]; auto.
    - intros ->. apply elem_of_app in Hr as [Hr|Hr]; [by eapply Hpre; [|left] | done].
    - done. }
  rewrite Hsplit, filter_app, filter_cons_True
    by (apply Is_true_true_2, Matches_spec, Subpaths_full, Hparts).
  rewrite !filter_none; [done|..]; intros r Hr; apply Hno; rewrite elem_of_app; auto.
Qed.

End ListingMore.

(** ** More on the import of starred repositories *)



Section StarredMore.
Context (w : World).






End StarredMore.

Section DoImportStarred.
Context (w : World).
Context (GitConfigSingle : list Event → string → error + string).
Context (newClient : string → list Event → string → Z
                     → error + (list github_Repository * Z)).





End DoImportStarred.

(** ** The help templates *)

Lemma append_assoc_string (a b c : string) : (a +:+ b) +:+ c = a +:+ (b +:+ c).
Proof. induction a as [|x a IH]; str_simpl; [done | by rewrite IH]. Qed.

Lemma fold_clauses (clause : string → string) (commands : list string) (acc tail : string) :
  fold_left (λ template name, template +:+ clause name) commands acc +:+ tail
  = acc +:+ foldr (λ name rest, clause name +:+ rest) tail commands.
Proof.
  revert acc. induction commands as [|name commands IH]; intros acc; simpl; [done|].
  by rewrite IH, append_assoc_string.
Qed.

(** X14: the template of [mkCommandsTemplate] is a chain of conditionals:
    [{{if false}}], then for every command, in order, a clause that tests its
    name and holds what the generator makes of its entry in [commandDocs],
    then [{{end}}]; each of the seven commands has an entry. *)
Theorem commands_template_closed_form (quote : string → string)
    (docs : gmap string commandDoc) (genTemplate : commandDoc → string)
    (commands : list string) :
  commandsTemplate quote docs genTemplate commands
  = "{{if false}}"
    +:+ foldr (λ name rest,
                 ("{{else if (eq .Name " +:+ quote name +:+ ")}}"
                  +:+ genTemplate (docOf docs name)) +:+ rest)
          "{{end}}" commands ∧
  mkCommandsTemplate quote genTemplate
  = commandsTemplate quote commandDocs genTemplate
      ["get"; "list"; "which"; "look"; "import"; "starred"; "pocket"] ∧
  Forall (λ name, is_Some (commandDocs !! name))
    ["get"; "list"; "which"; "look"; "import"; "starred"; "pocket"].
Proof.
  split; [|split].
  - unfold commandsTemplate. apply fold_clauses.
  - done.
  - by_compute.
Qed.

Lemma TrimLeft_no_leading (s cutset : string) (a : Ascii.ascii) :
  a ∉ String.list_ascii_of_string cutset → TrimLeft (String a s) cutset = String a s.
Proof. intros Ha. simpl. by rewrite bool_decide_eq_false_2. Qed.

(** X15: the parent shown before the name of a command in its usage line.
    A command without a parent gets nothing, not even a space; a command with
    a parent that does not begin with a space gets the parent and one space. *)
Theorem parent_prefix (doc : commandDoc) :
  (∀ a rest, Parent doc = String a rest → a ≠ Ascii.Space) →
  parentOf doc = if decide (Parent doc = "") then "" else Parent doc +:+ " ".
Proof.
  intros Hlead. unfold parentOf. destruct (Parent doc) as [|a rest] eqn:Hparent.
  - by vm_compute.
  - rewrite decide_False by done. str_simpl. apply TrimLeft_no_leading.
    simpl. rewrite elem_of_cons. intros [->|Hnil]; [by eapply Hlead | by apply elem_of_nil in Hnil].
Qed.

(** ** The unique listing and the order of the walk *)

Lemma frequency_Permutation (l l' : list LocalRepository) (p : string) :
  l ≡ₚ l' → frequency l p = frequency l' p.
Proof. intros Hperm. unfold frequency, occ, allSubpaths. by rewrite Hperm. Qed.

Lemma firstUnique_ext (c c' : gmap string Z) (ps : list string) :
  (∀ p, Go.get c p = Go.get c' p) → firstUnique c ps = firstUnique c' ps.
Proof. intros Heq. induction ps as [|p ps IH]; simpl; [done|]. by rewrite Heq, IH. Qed.

(** X16: the order of the walk does not change the names.  When the relPaths
    listed are pairwise different, the unique listing of the same repositories
    walked in another order prints the same lines, in the order of that
    walk. *)
Theorem unique_listing_walk_order (w w' : World) (query : string)
    (exact printFullPaths : bool) (tr : list Event) :
  walked w ≡ₚ walked w' →
  Z.of_nat (length (walked w)) < 2 ^ 63 →
  NoDup (RelPath <$> selected w (filterFn query exact)) →
  ∃ (choose : LocalRepository → option string),
    doList w query exact printFullPaths true tr
    = (Returns (), tr ++ (EvPrintln <$> omap choose (selected w (filterFn query exact)))) ∧
    doList w' query exact printFullPaths true tr
    = (Returns (), tr ++ (EvPrintln <$> omap choose (selected w' (filterFn query exact)))).
Proof.
  intros Hperm Hlen Hnd.
  assert (selected w (filterFn query exact) ≡ₚ selected w' (filterFn query exact)) as Hsel.
  { unfold selected. by rewrite Hperm. }
  assert (Z.of_nat (length (selected w (filterFn query exact))) < 2 ^ 63) as Hlen1.
  { pose proof (length_filter (λ repo, filterFn query exact repo) (walked w)).
    unfold selected. lia. }
  destruct (uniqueLines_distinct w _ Hlen1 Hnd) as (c & Hc & Hlines).
  destruct (uniqueLines_distinct w' (selected w' (filterFn query exact)))
    as (c' & Hc' & Hlines').
  { by rewrite <- Hsel. }
  { by rewrite <- Hsel. }
  exists (λ repo, firstUnique c (Subpaths repo)).
  rewrite !doList_unique_run, Hlines, Hlines'. split; [done|].
  do 3 f_equal. apply omap_ext_in. intros repo _. apply firstUnique_ext.
  intros p. by rewrite Hc, Hc', (frequency_Permutation _ _ p Hsel).
Qed.

(** ** More on the batch imports *)

Section BatchMore.
Context (w : World).

(** X17: an import can stop early.  A target with a valid remote for which
    no backend is found, and whose path is absent, ends either import loop
    with exit status 1 after the error is logged; the targets that follow are
    not looked at. *)
Theorem batch_import_stops_on_unknown_vcs (doUpdate isSSH isShallow : bool) :
  (∀ (repo : github_Repository) (rest : list github_Repository) (html : string)
     (url0 url : url_URL) (remote : RemoteRepository) (tr : list Event),
     HTMLURL repo = Some html →
     url_Parse w html = inr url0 →
     (if isSSH then ConvertGitURLHTTPToSSH w url0 else inr url0) = inr url →
     NewRemoteRepository w url = inr remote →
     IsValid remote = true → VCS remote = None →
     os_Stat w tr (FullPath (LocalRepositoryFromURL w (URL remote))) = StatNotExist →
     forM_ (repo :: rest) (importStarredRepository w doUpdate isSSH isShallow) tr
     = getRemoteRepository w remote doUpdate isShallow tr ∧
     (getRemoteRepository w remote doUpdate isShallow tr).1 = Exits 1) ∧
  (∀ (item : pocket_Item) (rest : list pocket_Item) (url : url_URL)
     (remote : RemoteRepository) (tr : list Event),
     url_Parse w (ResolvedURL item) = inr url →
     NewRemoteRepository w url = inr remote →
     IsValid remote = true → VCS remote = None →
     os_Stat w tr (FullPath (LocalRepositoryFromURL w (URL remote))) = StatNotExist →
     importPocketItems w doUpdate isShallow (item :: rest) tr
     = getRemoteRepository w remote doUpdate isShallow tr ∧
     (getRemoteRepository w remote doUpdate isShallow tr).1 = Exits 1).
Proof.
  assert (∀ remote tr, VCS remote = None →
            os_Stat w tr (FullPath (LocalRepositoryFromURL w (URL remote))) = StatNotExist →
            ∃ tr', getRemoteRepository w remote doUpdate isShallow tr = (Exits 1, tr'))
    as Hexit.
  { intros remote tr Hvcs Hstat. rewrite getRemoteRepository_run. simpl.
    rewrite Hstat, Hvcs. eauto. }
  split.
  - intros repo rest html url0 url remote tr Hhtml Hparse Hurl Hremote Hvalid Hvcs Hstat.
    destruct (Hexit remote tr Hvcs Hstat) as [tr' Hrun]. rewrite Hrun. split; [|done].
    simpl. unfold M_bind at 1.
    replace (importStarredRepository w doUpdate isSSH isShallow repo tr)
      with (getRemoteRepository w remote doUpdate isShallow tr); [by rewrite Hrun|].
    unfold importStarredRepository. rewrite Hhtml. run_monad. rewrite Hparse. run_monad.
    destruct isSSH; [rewrite Hurl | injection Hurl as ->]; run_monad;
      by rewrite Hremote, Hvalid.
  - intros item rest url remote tr Hparse Hremote Hvalid Hvcs Hstat.
    destruct (Hexit remote tr Hvcs Hstat) as [tr' Hrun]. rewrite Hrun. split; [|done].
    unfold importPocketItems. simpl. unfold M_bind at 1. unfold importPocketItem.
    rewrite Hparse, Hremote, Hvalid. simpl. by rewrite Hrun.
Qed.


End BatchMore.

(** ** The rest of the commands on the sample environments *)

Global Instance noSep_dec (part : string) : Decision (noSep part).
Proof. unfold noSep. apply _. Defined.

Lemma sync_flags_without_effect_witness :
  getRemoteRepository presentWorld aliceFooRemote true true []
  = getRemoteRepository presentWorld aliceFooRemote true false [] ∧
  getRemoteRepository absentWorld aliceFooRemote true true []
  = getRemoteRepository absentWorld aliceFooRemote false true [].
Proof.
  split.
  - apply (proj1 (sync_flags_without_effect presentWorld aliceFooRemote true true true false
                    [])). discriminate.
  - apply (proj2 (sync_flags_without_effect absentWorld aliceFooRemote true false true true
                    [])). reflexivity.
Defined.

Lemma import_performs_get_witness :
  importStarredRepository presentWorld true false false
    {| HTMLURL := Some "github.com/alice/foo" |} []
  = doGet presentWorld "github.com/alice/foo" true false false [] ∧
  importPocketItem presentWorld true false {| ResolvedURL := "github.com/alice/foo" |} []
  = doGet presentWorld "github.com/alice/foo" true false false [].
Proof.
  split.
  - apply (proj1 (import_performs_get presentWorld true false false)
             {| HTMLURL := Some "github.com/alice/foo" |} "github.com/alice/foo"
             {| URL_String := "github.com/alice/foo" |}
             {| URL_String := "github.com/alice/foo" |} aliceFooRemote []);
      [reflexivity | discriminate | reflexivity..].
  - apply (proj2 (import_performs_get presentWorld true false false)
             {| ResolvedURL := "github.com/alice/foo" |}
             {| URL_String := "github.com/alice/foo" |} aliceFooRemote []);
      [discriminate | reflexivity..].
Defined.

Lemma unique_listing_only_eligible_witness :
  ∃ lines : list string,
    doList mixedWorld "" false false true [] = (Returns (), [] ++ (EvPrintln <$> lines)) ∧
    (length lines
     ≤ length (filter (λ repo, specEligible mixedWorld
                                 (selected mixedWorld (filterFn "" false)) repo)
                 (selected mixedWorld (filterFn "" false))))%nat ∧
    (∀ line, line ∈ lines →
       ∃ repo, repo ∈ selected mixedWorld (filterFn "" false) ∧
               specEligible mixedWorld (selected mixedWorld (filterFn "" false)) repo = true ∧
               line ∈ Subpaths repo).
Proof.
  apply (unique_listing_only_eligible mixedWorld "" false false []). by vm_compute.
Defined.

Lemma unique_line_resolves_witness :
  ∃ lines : list string,
    doList (listingWorld [aliceFoo; bobFoo]) "" false false true []
    = (Returns (), [] ++ (EvPrintln <$> lines)) ∧
    ∀ line, line ∈ lines → line ≠ "" →
      ∃ repo, repo ∈ walked (listingWorld [aliceFoo; bobFoo]) ∧ line ∈ Subpaths repo ∧
        ∀ tr', doWhich (listingWorld [aliceFoo; bobFoo]) line tr'
               = (Returns (), tr' ++ [EvPrintln (FullPath repo)]).
Proof.
  apply (unique_line_resolves (listingWorld [aliceFoo; bobFoo]) false false []).
  - by vm_compute.
  - by_compute.
Defined.

Lemma shared_subpath_never_printed_witness :
  ∃ lines : list string,
    doList (listingWorld [aliceFoo; bobFoo]) "" false false true []
    = (Returns (), [] ++ (EvPrintln <$> lines)) ∧
    "foo" ∉ lines.
Proof.
  apply (shared_subpath_never_printed (listingWorld [aliceFoo; bobFoo]) "" false false
           aliceFoo bobFoo "foo" []).
  - by vm_compute.
  - by_compute.
  - by_compute.
  - by_compute.
  - by_compute.
  - by_compute.
  - by_compute.
Defined.

Lemma exact_listing_agrees_with_which_witness :
  doList absentWorld "alice/foo" true true false []
  = (Returns (),
     [] ++ (EvPrintln <$> (FullPath <$> selected absentWorld
                                          (λ repo, Matches repo "alice/foo")))) ∧
  (∀ repo, selected absentWorld (λ repo, Matches repo "alice/foo") = [repo] →
     doList absentWorld "alice/foo" true true false [] = doWhich absentWorld "alice/foo" []).
Proof.
  apply (exact_listing_agrees_with_which absentWorld "alice/foo" true []). discriminate.
Defined.

Lemma which_full_path_resolves_witness :
  doWhich absentWorld "github.com/alice/foo" []
  = (Returns (), [] ++ [EvPrintln "/r1/github.com/alice/foo"]).
Proof.
  apply (which_full_path_resolves absentWorld 3 aliceFoo []).
  - by_compute.
  - apply (Forall_in (λ r, RelPath r = Go.Join (PathParts r) "/" ∧
                           length (PathParts r) = 3%nat ∧
                           Forall noSep (PathParts r))). by_compute.
  - by_compute.
  - discriminate.
Defined.




Lemma parent_prefix_witness :
  parentOf {| Parent := "import"; Arguments := "[-u]" |} = "import ".
Proof.
  apply (parent_prefix {| Parent := "import"; Arguments := "[-u]" |}).
  intros a rest [= <- _]. discriminate.
Defined.

Lemma unique_listing_walk_order_witness :
  ∃ (choose : LocalRepository → option string),
    doList (listingWorld [aliceFoo; bobFoo]) "" false false true []
    = (Returns (),
       [] ++ (EvPrintln <$> omap choose (selected (listingWorld [aliceFoo; bobFoo])
                                           (filterFn "" false)))) ∧
    doList (listingWorld [bobFoo; aliceFoo]) "" false false true []
    = (Returns (),
       [] ++ (EvPrintln <$> omap choose (selected (listingWorld [bobFoo; aliceFoo])
                                           (filterFn "" false)))).
Proof.
  apply (unique_listing_walk_order (listingWorld [aliceFoo; bobFoo])
           (listingWorld [bobFoo; aliceFoo]) "" false false []).
  - apply perm_swap.
  - by vm_compute.
  - by_compute.
Defined.

Lemma batch_import_stops_on_unknown_vcs_witness :
  importPocketItems (sampleWorld "/r1" [] StatNotExist None unknownRemote) false false
    [{| ResolvedURL := "example.com/project" |}; {| ResolvedURL := "github.com/alice/foo" |}]
    []
  = getRemoteRepository (sampleWorld "/r1" [] StatNotExist None unknownRemote)
      {| URL := {| URL_String := "example.com/project" |}; IsValid := true; VCS := None |}
      false false [] ∧
  (getRemoteRepository (sampleWorld "/r1" [] StatNotExist None unknownRemote)
     {| URL := {| URL_String := "example.com/project" |}; IsValid := true; VCS := None |}
     false false []).1 = Exits 1.
Proof.
  apply (proj2 (batch_import_stops_on_unknown_vcs
                  (sampleWorld "/r1" [] StatNotExist None unknownRemote) false false false)
           {| ResolvedURL := "example.com/project" |}
           [{| ResolvedURL := "github.com/alice/foo" |}]
           {| URL_String := "example.com/project" |}
           {| URL := {| URL_String := "example.com/project" |};
              IsValid := true; VCS := None |} []); reflexivity.
Defined.

